(** * SimpleVector: a shallow embedding of [simple_vector.h]

  The container is a record of the three private members [size_],
  [capacity_] and [items_].  Unsigned [size_t] arithmetic is carried out
  in [N] with the 64-bit wrap-around written out, the owned block of
  [ArrayPtr] is a list of slots, and every method is a function into an
  error monad that separates the three ways the C++ code can leave the
  normal path: a thrown [std::out_of_range], a failed [assert], and an
  access outside the owned block. *)

From stdpp Require Import base numbers option list gmap.
From Stdlib Require Import NArith ZArith Lia.

Open Scope N_scope.

(** ** [size_t] *)

Definition SIZE_MODULUS : N := 2 ^ 64.

(** Reduction of an arithmetic result to the range of [size_t]. *)
Definition wrap (x : N) : N := x mod SIZE_MODULUS.

(** [++n] and [--n] on a [size_t]. *)
Definition size_incr (n : N) : N := wrap (n + 1).
Definition size_decr (n : N) : N := wrap (n + (SIZE_MODULUS - 1)).

(** ** Element types

  What the template parameter [Type] has to provide: a default
  constructor [Type()] and the state a value is left in once it has been
  the source of a [std::move]. *)
Class Element (T : Type) := {
default_value : T;
moved_from : T → T
}.

(** [operator==] and [operator<] of the element type, used by the free
  comparison functions only. *)
Class Comparable (T : Type) := {
elt_eqb : T → T → bool;
elt_ltb : T → T → bool
}.

(** ** The owned block

  Modelled from the spec: [array_ptr.h] is not among the sources.  The
  block is the list of its slots; [make n] owns exactly [n]
  default-valued slots, the default-constructed pointer owns nothing,
  and the raw accessors have no bounds check of their own, so an access
  outside the block has no defined result ([None]). *)
Module ArrayPtr.
Section Block.
Context {T : Type} `{Element T}.

Definition empty : list T := [].

Definition make (n : N) : list T := replicate (N.to_nat n) default_value.

Definition get (p : list T) (i : N) : option T := p !! N.to_nat i.

Definition set (p : list T) (i : N) (x : T) : option (list T) :=
  if decide (N.to_nat i < length p)%nat
  then Some (<[N.to_nat i := x]> p) else None.

(** [x = std::move(p[i])]: the value read, and the block with slot [i]
    left in its moved-from state. *)
Definition take_out (p : list T) (i : N) : option (T * list T) :=
  x ← get p i; Some (x, <[N.to_nat i := moved_from x]> p).
End Block.
End ArrayPtr.

(** ** The standard algorithms the header calls

  Each is the reference loop of the algorithm, run for
  [last - first] steps on slot indices. *)
Section Algorithms.
Context {T : Type} `{Element T}.

(** One element transfer [dst[d] = src[s]], by copy or by move. *)
Definition fetch (mv : bool) (src : list T) (s : N) : option (T * list T) :=
  if mv then ArrayPtr.take_out src s
  else x ← ArrayPtr.get src s; Some (x, src).

(** [std::copy] / [std::move] between two distinct blocks:
    [for (; first != last; ++first, ++d_first) *d_first = *first;] *)
Fixpoint forward_loop (mv : bool) (n : nat) (src : list T) (first : N)
    (dst : list T) (d_first : N) : option (list T * list T) :=
  match n with
  | O => Some (src, dst)
  | S k =>
      '(x, src') ← fetch mv src first;
      dst' ← ArrayPtr.set dst d_first x;
      forward_loop mv k src' (first + 1) dst' (d_first + 1)
  end.

Definition std_transfer (mv : bool) (src : list T) (first last : N)
    (dst : list T) (d_first : N) : option (list T * list T) :=
  forward_loop mv (N.to_nat (last - first)) src first dst d_first.

(** [std::copy_backward] / [std::move_backward] inside one block:
    [while (first != last) *(--d_last) = *(--last);] *)
Fixpoint backward_loop (mv : bool) (n : nat) (p : list T)
    (last d_last : N) : option (list T) :=
  match n with
  | O => Some p
  | S k =>
      '(x, p') ← fetch mv p (last - 1);
      p'' ← ArrayPtr.set p' (d_last - 1) x;
      backward_loop mv k p'' (last - 1) (d_last - 1)
  end.

Definition std_transfer_backward (mv : bool) (p : list T)
    (first last d_last : N) : option (list T) :=
  backward_loop mv (N.to_nat (last - first)) p last d_last.

(** [std::lexicographical_compare] on two ranges already read out. *)
Fixpoint lexicographical_compare `{Comparable T} (l1 l2 : list T) : bool :=
  match l1, l2 with
  | _, [] => false
  | [], _ :: _ => true
  | x :: l1', y :: l2' =>
      if elt_ltb x y then true
      else if elt_ltb y x then false
      else lexicographical_compare l1' l2'
  end.

(** The four-iterator [std::equal]: the distances must agree, then the
    elements are compared pairwise with [operator==]. *)
Fixpoint equal_elements `{Comparable T} (l1 l2 : list T) : bool :=
  match l1, l2 with
  | [], [] => true
  | x :: l1', y :: l2' => elt_eqb x y && equal_elements l1' l2'
  | _, _ => false
  end.

Definition std_equal `{Comparable T} (l1 l2 : list T) : bool :=
  if decide (length l1 = length l2) then equal_elements l1 l2 else false.
End Algorithms.

(** ** The container *)

Record SimpleVector (T : Type) : Type := mkVector {
size_ : N;
capacity_ : N;
items_ : list T
}.
Arguments mkVector {T} _ _ _.
Arguments size_ {T} _.
Arguments capacity_ {T} _.
Arguments items_ {T} _.

(** How a call ends.  A thrown [std::out_of_range] carries the container
  as the handler finds it; a failed [assert] aborts the program and an
  access outside the owned block is undefined behaviour, so neither
  leaves a state behind. *)
Inductive outcome (T A : Type) : Type :=
| Ok (a : A)
| OutOfRange (this : SimpleVector T)
| AssertFail
| Undefined.
Arguments Ok {T A} _.
Arguments OutOfRange {T A} _.
Arguments AssertFail {T A}.
Arguments Undefined {T A}.

Definition obind {T A B} (m : outcome T A) (f : A → outcome T B) : outcome T B :=
match m with
| Ok a => f a
| OutOfRange v => OutOfRange v
| AssertFail => AssertFail
| Undefined => Undefined
end.

(** A raw block access: outside the block the behaviour is undefined. *)
Definition raw {T A} (o : option A) : outcome T A :=
match o with Some a => Ok a | None => Undefined end.

#[global] Instance outcome_bind {T} : MBind (outcome T) :=
fun A B f m => obind m f.
#[global] Instance outcome_ret {T} : MRet (outcome T) := fun A a => Ok a.

(** [for (size_t i = lo; i < hi; ++i) body] *)
Fixpoint for_loop {T S} (n : nat) (i : N) (body : N → S → outcome T S)
  (s : S) : outcome T S :=
match n with
| O => Ok s
| S k => s' ← body i s; for_loop k (i + 1) body s'
end.

Definition for_range {T S} (lo hi : N) (body : N → S → outcome T S)
  (s : S) : outcome T S :=
for_loop (N.to_nat (hi - lo)) lo body s.

Section Vector.
Context {T : Type} `{Element T}.

Abbreviation vector := (SimpleVector T).

Definition with_items (v : vector) (p : list T) : vector :=
  mkVector (size_ v) (capacity_ v) p.

Definition with_size (v : vector) (n : N) : vector :=
  mkVector n (capacity_ v) (items_ v).

(** [items_[i] = x], through [ArrayPtr::operator[]]. *)
Definition raw_assign (v : vector) (i : N) (x : T) : outcome T vector :=
  p ← raw (ArrayPtr.set (items_ v) i x); Ok (with_items v p).

(** [v[index] = x], through [SimpleVector::operator[]] and its assert. *)
Definition subscript_assign (v : vector) (index : N) (x : T)
    : outcome T vector :=
  if index <? size_ v then raw_assign v index x else AssertFail.

(** [SimpleVector() noexcept = default] *)
Definition SimpleVector_default : vector := mkVector 0 0 ArrayPtr.empty.

(** [explicit SimpleVector(size_t size)] *)
Definition SimpleVector_sized (size : N) : outcome T vector :=
  for_range 0 size (fun i v => raw_assign v i default_value)
    (mkVector size size (ArrayPtr.make size)).

(** [SimpleVector(std::initializer_list<Type> init)] *)
Definition SimpleVector_init (init : list T) : outcome T vector :=
  let n := N.of_nat (length init) in
  '(_, p) ← raw (std_transfer false init 0 n (ArrayPtr.make n) 0);
  Ok (mkVector n n p).

(** [SimpleVector(const ReserveProxyObj& reserved)] *)
Definition SimpleVector_reserved (capacity : N) : vector :=
  mkVector 0 capacity (ArrayPtr.make capacity).

(** [SimpleVector(const SimpleVector& other)] *)
Definition SimpleVector_copy (other : vector) : outcome T vector :=
  let this := mkVector (size_ other) (capacity_ other)
                (ArrayPtr.make (size_ other)) in
  '(_, p) ← raw (std_transfer false (items_ other) 0 (size_ other)
                    (items_ this) 0);
  Ok (with_items this p).

(** [SimpleVector(SimpleVector&& moved) noexcept]: the new object and
    what is left of [moved]. *)
Definition SimpleVector_move (moved : vector) : vector * vector :=
  (mkVector (size_ moved) (capacity_ moved) (items_ moved),
   mkVector 0 0 ArrayPtr.empty).

(** [void swap(SimpleVector& other) noexcept] *)
Definition swap (this other : vector) : vector * vector := (other, this).

Definition GetSize (v : vector) : N := size_ v.
Definition GetCapacity (v : vector) : N := capacity_ v.
Definition IsEmpty (v : vector) : bool := size_ v =? 0.

(** [Type& At(size_t index)] and its const overload: the element the
    returned reference denotes, and the container after the call. *)
Definition At (v : vector) (index : N) : outcome T (T * vector) :=
  if size_ v <=? index then OutOfRange v
  else x ← raw (ArrayPtr.get (items_ v) index); Ok (x, v).

(** [void Clear() noexcept] *)
Definition Clear (v : vector) : vector := with_size v 0.

(** [std::max(capacity_ + 1, capacity_ * 2)] *)
Definition grown_capacity (capacity : N) : N :=
  N.max (wrap (capacity + 1)) (wrap (capacity * 2)).

(** [temp[i] = std::move(items_[i])] on the pair of the old block and the
    temporary vector. *)
Definition move_step (i : N) (st : list T * vector)
    : outcome T (list T * vector) :=
  '(x, src') ← raw (ArrayPtr.take_out st.1 i);
  t' ← subscript_assign st.2 i x;
  Ok (src', t').

(** [for (size_t i = 0; i < size_; i++) temp[i] = std::move(items_[i]);] *)
Definition move_into (size : N) (items : list T) (temp : vector)
    : outcome T (list T * vector) :=
  for_range 0 size move_step (items, temp).

(** [void Reserve(size_t new_capacity)] *)
Definition Reserve (v : vector) (new_capacity : N) : outcome T vector :=
  if capacity_ v <? new_capacity then
    temp_vector ← SimpleVector_sized new_capacity;
    '(_, p) ← raw (std_transfer false (items_ v) 0 (size_ v)
                      (items_ temp_vector) 0);
    Ok (mkVector (size_ v) (capacity_ temp_vector) p)
  else Ok v.

(** [void PushBack(const Type& item)] *)
Definition PushBack (v : vector) (item : T) : outcome T vector :=
  v1 ← (if size_ v =? capacity_ v
        then Reserve v (if capacity_ v =? 0 then 1 else wrap (capacity_ v * 2))
        else Ok v);
  p ← raw (ArrayPtr.set (items_ v1) (size_ v1) item);
  Ok (mkVector (size_incr (size_ v1)) (capacity_ v1) p).

(** [void PushBack(Type&& item)] *)
Definition PushBack_move (v : vector) (item : T) : outcome T vector :=
  v1 ← (if size_ v =? capacity_ v then
          temp_vector ← SimpleVector_sized (grown_capacity (capacity_ v));
          '(_, temp') ← move_into (size_ v) (items_ v) temp_vector;
          Ok (mkVector (size_ v) (capacity_ temp') (items_ temp'))
        else Ok v);
  p ← raw (ArrayPtr.set (items_ v1) (size_ v1) item);
  Ok (mkVector (size_incr (size_ v1)) (capacity_ v1) p).

(** [Iterator Insert(ConstIterator pos, const Type& value)] and
    [Iterator Insert(ConstIterator pos, Type&& value)], which differ only
    in calling [std::copy]/[std::copy_backward] or
    [std::move]/[std::move_backward] ([mv]).  An iterator is its offset
    from [begin()], counted in elements; the offset is negative for a
    pointer before the block. *)
Definition Insert_with (mv : bool) (v : vector) (pos : Z) (value : T)
    : outcome T (Z * vector) :=
  if (0 <=? pos)%Z && (pos <=? Z.of_N (size_ v))%Z then
    let index := Z.to_N pos in
    v1 ← (if size_ v =? capacity_ v then
            temp_vector ← SimpleVector_sized (grown_capacity (capacity_ v));
            '(src1, p1) ← raw (std_transfer mv (items_ v) 0 index
                                 (items_ temp_vector) 0);
            temp1 ← subscript_assign (with_items temp_vector p1) index value;
            '(_, p2) ← raw (std_transfer mv src1 index (size_ v)
                              (items_ temp1) (index + 1));
            Ok (mkVector (size_ v) (capacity_ temp1) p2)
          else
            p ← raw (std_transfer_backward mv (items_ v) index (size_ v)
                       (size_ v + 1));
            raw_assign (with_items v p) index value);
    Ok (Z.of_N index, with_size v1 (size_incr (size_ v1)))
  else AssertFail.

Definition Insert := Insert_with false.
Definition Insert_move := Insert_with true.

(** [void PopBack() noexcept] *)
Definition PopBack (v : vector) : outcome T vector :=
  if IsEmpty v then AssertFail else Ok (with_size v (size_decr (size_ v))).

(** [items_[i - 1] = std::move(items_[i])] *)
Definition erase_step (i : N) (p : list T) : outcome T (list T) :=
  '(x, p') ← raw (ArrayPtr.take_out p i);
  raw (ArrayPtr.set p' (size_decr i) x).

(** [Iterator Erase(ConstIterator pos)] *)
Definition Erase (v : vector) (pos : Z) : outcome T (Z * vector) :=
  if (0 <=? pos)%Z && (pos <? Z.of_N (size_ v))%Z then
    let index := Z.to_N pos in
    p ← for_range (wrap (index + 1)) (size_ v) erase_step (items_ v);
    Ok (Z.of_N index, mkVector (size_decr (size_ v)) (capacity_ v) p)
  else AssertFail.

(** [void Resize(size_t new_size)] *)
Definition Resize (v : vector) (new_size : N) : outcome T vector :=
  v1 ← (if capacity_ v <? new_size then
          temp_vec ← SimpleVector_sized
                       (N.max new_size (wrap (capacity_ v * 2)));
          '(_, temp') ← move_into (size_ v) (items_ v) temp_vec;
          Ok (mkVector (size_ v) (capacity_ temp') (items_ temp'))
        else Ok v);
  v2 ← (if size_ v1 <? new_size
        then for_range (size_ v1) new_size
               (fun i w => raw_assign w i default_value) v1
        else Ok v1);
  Ok (with_size v2 new_size).

(** The elements of the range [[begin(), end())]. *)
Definition live (v : vector) : option (list T) :=
  if decide (N.to_nat (size_ v) ≤ length (items_ v))%nat
  then Some (take (N.to_nat (size_ v)) (items_ v)) else None.

(** *** Assignment

    Both operators compare the address of the right-hand side with
    [this], so they are stated on a store of vector objects. *)

(** [SimpleVector& operator=(const SimpleVector& rhs)] *)
Definition assign_copy (h : gmap N vector) (this rhs : N)
    : outcome T (gmap N vector) :=
  if decide (this = rhs) then Ok h
  else
    t ← raw (h !! this);
    r ← raw (h !! rhs);
    temp ← SimpleVector_copy r;
    let '(t', _) := swap t temp in
    Ok (<[this := t']> h).

(** [SimpleVector& operator=(SimpleVector&& rhs)] *)
Definition assign_move (h : gmap N vector) (this rhs : N)
    : outcome T (gmap N vector) :=
  if decide (this = rhs) then Ok h
  else
    t ← raw (h !! this);
    r ← raw (h !! rhs);
    let '(temp, r') := SimpleVector_move r in
    let '(t', _) := swap t temp in
    Ok (<[this := t']> (<[rhs := r']> h)).

(** *** Comparison *)
Context `{Comparable T}.

(** [operator==], on the store because it compares addresses first. *)
Definition op_eq (h : gmap N vector) (lhs rhs : N) : outcome T bool :=
  l ← raw (h !! lhs);
  r ← raw (h !! rhs);
  if decide (lhs = rhs) then Ok true
  else if GetSize l =? GetSize r then
    la ← raw (live l); lb ← raw (live r); Ok (std_equal la lb)
  else Ok false.

(** [operator!=] *)
Definition op_ne (h : gmap N vector) (lhs rhs : N) : outcome T bool :=
  b ← op_eq h lhs rhs; Ok (negb b).

(** [operator<] *)
Definition op_lt (lhs rhs : vector) : outcome T bool :=
  la ← raw (live lhs); lb ← raw (live rhs);
  Ok (lexicographical_compare la lb).

(** [operator>] *)
Definition op_gt (lhs rhs : vector) : outcome T bool := op_lt rhs lhs.

(** [operator<=] *)
Definition op_le (lhs rhs : vector) : outcome T bool :=
  b ← op_gt lhs rhs; Ok (negb b).

(** [operator>=] *)
Definition op_ge (lhs rhs : vector) : outcome T bool :=
  b ← op_lt lhs rhs; Ok (negb b).

(** *** Size, capacity and block agree

    The invariant of the data model: the live elements fit the capacity,
    the block owns exactly [capacity_] slots, and the capacity is a
    [size_t] value. *)
Definition wf (v : vector) : Prop :=
  size_ v ≤ capacity_ v ∧
  N.of_nat (length (items_ v)) = capacity_ v ∧
  capacity_ v < SIZE_MODULUS.

(** The container after its block has been replaced by a fresh one of
    [capacity] slots holding the live elements: the live prefix followed
    by default-valued slots. *)
Definition regrown (v : vector) (capacity : N) : vector :=
  mkVector (size_ v) capacity
    (take (N.to_nat (size_ v)) (items_ v)
       ++ replicate (N.to_nat (capacity - size_ v)) default_value).

(** The growth policy in the words of the specification:
    [newCapacity = max(capacity * 2, capacity + 1)]. *)
Definition growth_policy (capacity : N) : N :=
  N.max (capacity * 2) (capacity + 1).

(** The state in which both overloads of [PushBack] store the new
    element. *)
Definition before_store (v : vector) : vector :=
  if size_ v =? capacity_ v then regrown v (growth_policy (capacity_ v))
  else v.

Definition after_store (v : vector) (x : T) : vector :=
  let v1 := before_store v in
  mkVector (size_ v + 1) (capacity_ v1)
    (<[N.to_nat (size_ v) := x]> (items_ v1)).

(** A run of appends, each by copy ([false]) or by move ([true]). *)
Definition append (v : vector) (op : bool * T) : outcome T vector :=
  if op.1 then PushBack_move v op.2 else PushBack v op.2.

Fixpoint append_all (v : vector) (ops : list (bool * T)) : outcome T vector :=
  match ops with
  | [] => Ok v
  | op :: ops' => v' ← append v op; append_all v' ops'
  end.

(** Standard lexicographic order of sequences under the element order
    [elt_ltb]: the first position where the two differ decides, and a
    proper prefix comes before the longer sequence. *)
Inductive lex_lt : list T → list T → Prop :=
| lex_lt_prefix y l2 : lex_lt [] (y :: l2)
| lex_lt_head x y l1 l2 : elt_ltb x y = true → lex_lt (x :: l1) (y :: l2)
| lex_lt_tail x y l1 l2 :
    elt_ltb x y = false → elt_ltb y x = false →
    lex_lt l1 l2 → lex_lt (x :: l1) (y :: l2).

End Vector.

(** The capacity the specification predicts after [n] appends to the
    empty container: the growth policy applied each time an append finds
    the capacity exhausted. *)
Fixpoint capacity_after (n : nat) : N :=
  match n with
  | O => 0
  | S k =>
      let c := capacity_after k in
      if N.of_nat k =? c then growth_policy c else c
  end.

(** [int] elements, for the concrete scenarios. *)
#[global] Instance Z_element : Element Z :=
  {| default_value := 0%Z; moved_from := fun x => x |}.
#[global] Instance Z_comparable : Comparable Z :=
  {| elt_eqb := Z.eqb; elt_ltb := Z.ltb |}.

(** The container of the scenarios: three live elements in a block of
    four slots, as three appends to the empty container leave it. *)
Definition three_of_four : SimpleVector Z :=
  mkVector 3 4 [5; 7; 9; 0]%Z.

(** ** Further members *)
Section Members.
Context {T : Type} `{Element T}.

(** [SimpleVector(size_t size, const Type& value)] *)
Definition SimpleVector_filled (size : N) (value : T)
    : outcome T (SimpleVector T) :=
  for_range 0 size (fun i v => raw_assign v i value)
    (mkVector size size (ArrayPtr.make size)).

(** [Type& operator[](size_t index) noexcept] and its const overload:
    the element the returned reference denotes, and the container after
    the call. *)
Definition subscript (v : SimpleVector T) (index : N)
    : outcome T (T * SimpleVector T) :=
  if index <? size_ v
  then x ← raw (ArrayPtr.get (items_ v) index); Ok (x, v)
  else AssertFail.

End Members.

(** * Properties *)

Lemma wrap_small x : x < SIZE_MODULUS → wrap x = x.
Proof. intros. unfold wrap. by apply N.mod_small. Qed.

Lemma size_incr_small n : n + 1 < SIZE_MODULUS → size_incr n = n + 1.
Proof. apply wrap_small. Qed.

Lemma size_decr_pos n : 0 < n → n < SIZE_MODULUS → size_decr n = n - 1.
Proof.
  intros Hpos Hlt. unfold size_decr, wrap.
  replace (n + (SIZE_MODULUS - 1)) with ((n - 1) + 1 * SIZE_MODULUS)
    by (unfold SIZE_MODULUS in *; lia).
  rewrite N.Div0.mod_add. apply N.mod_small. lia.
Qed.

(** ** Raw block accesses *)
Section BlockLemmas.
Context {T : Type} `{Element T}.
Implicit Types (p A B C D E seg : list T) (x y : T) (i : N).

Lemma get_middle A x B i :
  N.to_nat i = length A → ArrayPtr.get (A ++ x :: B) i = Some x.
Proof. intros Hi. unfold ArrayPtr.get. rewrite Hi. apply list_lookup_middle. done. Qed.

Lemma set_middle A y B i x :
  N.to_nat i = length A → ArrayPtr.set (A ++ y :: B) i x = Some (A ++ x :: B).
Proof.
  intros Hi. unfold ArrayPtr.set. rewrite Hi.
  rewrite decide_True by (rewrite length_app; simpl; lia).
  f_equal. rewrite insert_app_r_alt by lia.
  by rewrite Nat.sub_diag.
Qed.

Lemma take_out_middle A x B i :
  N.to_nat i = length A →
  ArrayPtr.take_out (A ++ x :: B) i = Some (x, A ++ moved_from x :: B).
Proof.
  intros Hi. unfold ArrayPtr.take_out. rewrite get_middle by done. simpl.
  rewrite Hi, insert_app_r_alt by lia. by rewrite Nat.sub_diag.
Qed.

Lemma fetch_middle mv A x B i :
  N.to_nat i = length A →
  ∃ x', (mv = false → x' = x) ∧
        fetch mv (A ++ x :: B) i = Some (x, A ++ x' :: B).
Proof.
  intros Hi. destruct mv; simpl.
  - exists (moved_from x). split; [done|]. by apply take_out_middle.
  - exists x. split; [done|]. by rewrite get_middle.
Qed.

(** Cutting a block at two slot indices. *)
Lemma split_block p (a b : nat) :
  (a ≤ b)%nat →
  p = take a p ++ take (b - a) (drop a p) ++ drop b p.
Proof.
  intros Hab. rewrite <- (take_drop a p) at 1. f_equal.
  rewrite <- (take_drop (b - a) (drop a p)) at 1. f_equal.
  rewrite drop_drop. f_equal. lia.
Qed.

(** [std::copy]/[std::move] of the segment [seg] over the slots [D]. *)
Lemma forward_loop_segment mv seg : ∀ A B C D E first d_first,
  length D = length seg →
  N.to_nat first = length A → N.to_nat d_first = length C →
  ∃ seg', length seg' = length seg ∧ (mv = false → seg' = seg) ∧
    forward_loop mv (length seg) (A ++ seg ++ B) first (C ++ D ++ E) d_first
    = Some (A ++ seg' ++ B, C ++ seg ++ E).
Proof.
  induction seg as [|x seg IH]; intros A B C D E first d_first HD HA HC.
  - destruct D; [|done]. exists []. by simpl.
  - destruct D as [|y D]; [done|]. simpl in HD.
    destruct (fetch_middle mv A x (seg ++ B) first HA) as (x' & Hx' & Hf).
    destruct (IH (A ++ [x']) B (C ++ [x]) D E (first + 1) (d_first + 1))
      as (seg' & Hlen & Hcopy & Hloop).
    { lia. } { rewrite length_app; simpl; lia. } { rewrite length_app; simpl; lia. }
    exists (x' :: seg'). split; [simpl; lia|]. split.
    { intros Hmv. by rewrite Hx', Hcopy. }
    simpl. rewrite Hf. simpl. rewrite set_middle by done. simpl.
    rewrite <- !app_assoc in Hloop. simpl in Hloop. exact Hloop.
Qed.

(** [std::copy_backward]/[std::move_backward] shifting [seg] one slot to
    the right; the vacated slot keeps some value [g]. *)
Lemma backward_loop_shift mv seg : ∀ A y B last,
  N.to_nat last = (length A + length seg)%nat →
  ∃ g, backward_loop mv (length seg) (A ++ seg ++ y :: B) last (last + 1)
       = Some (A ++ g :: seg ++ B).
Proof.
  induction seg as [|z seg IH] using rev_ind; intros A y B last Hlast.
  - exists y. done.
  - rewrite length_app in *. simpl in *.
    replace (length seg + 1)%nat with (S (length seg)) by lia. simpl.
    replace (last + 1 - 1) with last by lia.
    destruct (fetch_middle mv (A ++ seg) z (y :: B) (last - 1)) as (z' & _ & Hf).
    { rewrite length_app. lia. }
    rewrite <- !app_assoc in Hf. simpl in Hf.
    rewrite <- app_assoc. simpl. rewrite Hf. simpl.
    replace (A ++ seg ++ z' :: y :: B) with ((A ++ seg ++ [z']) ++ y :: B)
      by (by rewrite <- !app_assoc).
    rewrite set_middle by (rewrite !length_app; simpl; lia). simpl.
    destruct (IH A z' (z :: B) (last - 1)) as (g & Hg). { lia. }
    exists g. replace (last - 1 + 1) with last in Hg by lia.
    rewrite <- !app_assoc. simpl. by rewrite Hg.
Qed.

Lemma std_transfer_segment mv seg A B C D E first last d_first :
  length D = length seg →
  N.to_nat first = length A → N.to_nat last = (length A + length seg)%nat →
  N.to_nat d_first = length C →
  ∃ seg', length seg' = length seg ∧ (mv = false → seg' = seg) ∧
    std_transfer mv (A ++ seg ++ B) first last (C ++ D ++ E) d_first
    = Some (A ++ seg' ++ B, C ++ seg ++ E).
Proof.
  intros HD Hf Hl Hd. unfold std_transfer.
  replace (N.to_nat (last - first)) with (length seg) by lia.
  by apply forward_loop_segment.
Qed.

(** The two algorithms on slot indices. *)
Lemma std_transfer_spec mv src first last dst d_first :
  first ≤ last → (N.to_nat last ≤ length src)%nat →
  (N.to_nat d_first + N.to_nat (last - first) ≤ length dst)%nat →
  let n := N.to_nat (last - first) in
  let seg := take n (drop (N.to_nat first) src) in
  ∃ seg', length seg' = n ∧ (mv = false → seg' = seg) ∧
    std_transfer mv src first last dst d_first
    = Some (take (N.to_nat first) src ++ seg' ++ drop (N.to_nat last) src,
            take (N.to_nat d_first) dst ++ seg
              ++ drop (N.to_nat d_first + n) dst).
Proof.
  intros Hfl Hsrc Hdst n seg.
  assert (Hseg : length seg = n).
  { subst seg. rewrite length_take, length_drop. lia. }
  pose proof (split_block src (N.to_nat first) (N.to_nat last)) as Es.
  replace (N.to_nat last - N.to_nat first)%nat with n in Es by lia.
  pose proof (split_block dst (N.to_nat d_first) (N.to_nat d_first + n)) as Ed.
  replace (N.to_nat d_first + n - N.to_nat d_first)%nat with n in Ed by lia.
  destruct (forward_loop_segment mv seg (take (N.to_nat first) src)
              (drop (N.to_nat last) src) (take (N.to_nat d_first) dst)
              (take n (drop (N.to_nat d_first) dst))
              (drop (N.to_nat d_first + n) dst) first d_first)
    as (seg' & Hlen & Hcopy & Hloop).
  { rewrite length_take, length_drop. lia. }
  { rewrite length_take. lia. }
  { rewrite length_take. lia. }
  exists seg'. split; [lia|]. split; [done|].
  unfold std_transfer. fold n. rewrite Hseg in Hloop.
  fold seg in Es. rewrite <- Es, <- Ed in Hloop by lia. exact Hloop.
Qed.

End BlockLemmas.

(** ** The loops of the methods *)
Section LoopLemmas.
Context {T : Type} `{Element T}.
Implicit Types (v t : SimpleVector T) (p A B C D E seg : list T) (x y : T).

Lemma raw_assign_middle v A y B i x :
  items_ v = A ++ y :: B → N.to_nat i = length A →
  raw_assign v i x = Ok (with_items v (A ++ x :: B)).
Proof.
  intros Hv Hi. unfold raw_assign. rewrite Hv.
  by rewrite set_middle.
Qed.

(** [for (i = lo; i < hi; ++i) items_[i] = x;] overwrites the slots [D]. *)
Lemma fill_loop x D : ∀ A E i v,
  items_ v = A ++ D ++ E → N.to_nat i = length A →
  for_loop (length D) i (fun i w => raw_assign w i x) v
  = Ok (with_items v (A ++ replicate (length D) x ++ E)).
Proof.
  induction D as [|y D IH]; intros A E i v Hv Hi; simpl.
  - destruct v; simpl in *; by subst.
  - rewrite (raw_assign_middle v A y (D ++ E) i x) by done. simpl.
    rewrite (IH (A ++ [x]) E (i + 1)).
    + unfold with_items; simpl. by rewrite <- app_assoc.
    + simpl. by rewrite <- app_assoc.
    + rewrite length_app; simpl; lia.
Qed.

Lemma fill_range x v lo hi :
  lo ≤ hi → (N.to_nat hi ≤ length (items_ v))%nat →
  for_range lo hi (fun i w => raw_assign w i x) v
  = Ok (with_items v (take (N.to_nat lo) (items_ v)
                        ++ replicate (N.to_nat (hi - lo)) x
                        ++ drop (N.to_nat hi) (items_ v))).
Proof.
  intros Hle Hhi. unfold for_range.
  pose proof (split_block (items_ v) (N.to_nat lo) (N.to_nat hi)) as Es.
  set (D := take (N.to_nat hi - N.to_nat lo) (drop (N.to_nat lo) (items_ v))) in *.
  assert (HD : length D = N.to_nat (hi - lo)).
  { subst D. rewrite length_take, length_drop. lia. }
  rewrite <- HD.
  apply fill_loop; [apply Es; lia | rewrite length_take; lia].
Qed.

Lemma SimpleVector_sized_spec (size : N) :
  SimpleVector_sized size
  = Ok (mkVector size size (replicate (N.to_nat size) (default_value (T:=T)))).
Proof.
  unfold SimpleVector_sized. rewrite fill_range; simpl.
  - unfold ArrayPtr.make, with_items. simpl. do 2 f_equal.
    rewrite N.sub_0_r, drop_ge by (rewrite length_replicate; lia).
    by rewrite app_nil_r.
  - lia.
  - unfold ArrayPtr.make. rewrite length_replicate. lia.
Qed.

Lemma erase_step_middle A x z B (i : N) :
  N.to_nat i = S (length A) → i < SIZE_MODULUS →
  erase_step i (A ++ x :: z :: B) = Ok (A ++ z :: moved_from z :: B).
Proof.
  intros Hi Hlt. unfold erase_step.
  replace (A ++ x :: z :: B) with ((A ++ [x]) ++ z :: B)
    by (by rewrite <- app_assoc).
  rewrite take_out_middle by (rewrite length_app; simpl; lia). simpl.
  rewrite size_decr_pos by lia.
  rewrite <- app_assoc. simpl.
  by rewrite set_middle by lia.
Qed.

Lemma move_step_middle A x B C y E (i : N) t :
  N.to_nat i = length A → length C = length A →
  items_ t = C ++ y :: E → i < size_ t →
  move_step i (A ++ x :: B, t)
  = Ok (A ++ moved_from x :: B, with_items t (C ++ x :: E)).
Proof.
  intros Hi HC Ht Hsz. unfold move_step. simpl.
  rewrite take_out_middle by done. simpl.
  unfold subscript_assign.
  replace (i <? size_ t) with true by (symmetry; apply N.ltb_lt; lia).
  by rewrite (raw_assign_middle t C y E i x) by (done || lia).
Qed.

(** The shifting loop of [Erase]. *)
Lemma erase_loop seg : ∀ A x B i,
  N.to_nat i = S (length A) →
  i + N.of_nat (length seg) ≤ SIZE_MODULUS →
  ∃ g, for_loop (length seg) i erase_step (A ++ x :: seg ++ B)
       = Ok (A ++ seg ++ g :: B).
Proof.
  induction seg as [|z seg IH]; intros A x B i Hi Hbound.
  - exists x. done.
  - simpl in Hbound. simpl.
    rewrite erase_step_middle by lia. simpl.
    destruct (IH (A ++ [z]) (moved_from z) B (i + 1)) as (g & Hg).
    { rewrite length_app; simpl; lia. } { lia. }
    exists g. rewrite <- !app_assoc in Hg. exact Hg.
Qed.

(** The element-by-element move into a temporary vector. *)
Lemma move_into_loop seg : ∀ A B C D E i t,
  length D = length seg → N.to_nat i = length A → length C = length A →
  items_ t = C ++ D ++ E →
  N.of_nat (length A + length seg) ≤ size_ t →
  ∃ src',
    for_loop (length seg) i move_step (A ++ seg ++ B, t)
    = Ok (src', with_items t (C ++ seg ++ E)).
Proof.
  induction seg as [|x seg IH]; intros A B C D E i t HD Hi HC Ht Hsz.
  - destruct D; [|done]. exists (A ++ B). simpl in *.
    destruct t; simpl in *; by subst.
  - destruct D as [|y D]; [done|]. simpl in *.
    rewrite (move_step_middle A x (seg ++ B) C y (D ++ E)) by (done || lia).
    simpl.
    destruct (IH (A ++ [moved_from x]) B (C ++ [x]) D E (i + 1)
                (with_items t (C ++ x :: D ++ E))) as (src' & Hloop).
    { lia. } { rewrite length_app; simpl; lia. }
    { rewrite !length_app; simpl; lia. }
    { simpl. by rewrite <- app_assoc. }
    { simpl. rewrite length_app; simpl; lia. }
    exists src'. rewrite <- !app_assoc in Hloop. simpl in Hloop.
    rewrite Hloop. unfold with_items; simpl. by rewrite <- ?app_assoc.
Qed.

Lemma move_into_spec (size : N) (items : list T) t :
  (N.to_nat size ≤ length items)%nat →
  (N.to_nat size ≤ length (items_ t))%nat → size ≤ size_ t →
  ∃ src',
    move_into size items t
    = Ok (src', with_items t (take (N.to_nat size) items
                                ++ drop (N.to_nat size) (items_ t))).
Proof.
  intros Hitems Ht Hsz. unfold move_into, for_range.
  rewrite N.sub_0_r.
  set (seg := take (N.to_nat size) items).
  assert (Hseg : length seg = N.to_nat size).
  { subst seg. rewrite length_take. lia. }
  destruct (move_into_loop seg [] (drop (N.to_nat size) items) []
              (take (N.to_nat size) (items_ t))
              (drop (N.to_nat size) (items_ t)) 0 t) as (src' & Hloop).
  { rewrite length_take. lia. } { done. } { done. }
  { simpl. by rewrite take_drop. } { simpl. lia. }
  exists src'. simpl in Hloop. subst seg.
  rewrite take_drop in Hloop. rewrite Hseg in Hloop. exact Hloop.
Qed.

End LoopLemmas.

(** ** Capacity management and append *)
Section Growth.
Context {T : Type} `{Element T}.
Implicit Types (v : SimpleVector T) (x : T).

Lemma live_wf v : wf v → live v = Some (take (N.to_nat (size_ v)) (items_ v)).
Proof.
  intros (Hsz & Hlen & _). unfold live.
  by rewrite decide_True by lia.
Qed.

Lemma wf_regrown v c :
  wf v → size_ v ≤ c → c < SIZE_MODULUS → wf (regrown v c).
Proof.
  intros (Hsz & Hlen & Hcap) Hc Hlt. unfold wf, regrown; simpl.
  rewrite length_app, length_take, length_replicate. lia.
Qed.

Lemma live_regrown v c :
  wf v → size_ v ≤ c → live (regrown v c) = live v.
Proof.
  intros Hwf Hc. rewrite (live_wf v Hwf).
  destruct Hwf as (Hsz & Hlen & Hcap).
  unfold live, regrown; simpl.
  rewrite decide_True
    by (rewrite length_app, length_take, length_replicate; lia).
  f_equal. rewrite take_app_length'; [done|]. rewrite length_take. lia.
Qed.

(** Copying the live elements into a fresh vector of [c] slots, as
    [Reserve] does. *)
Lemma copy_into_fresh v c :
  wf v → size_ v ≤ c →
  std_transfer false (items_ v) 0 (size_ v)
    (replicate (N.to_nat c) (default_value (T:=T))) 0
  = Some (items_ v, items_ (regrown v c)).
Proof.
  intros (Hsz & Hlen & Hcap) Hc.
  destruct (std_transfer_spec false (items_ v) 0 (size_ v)
              (replicate (N.to_nat c) default_value) 0)
    as (seg' & Hlen' & Hcopy & Heq).
  { lia. } { lia. } { rewrite length_replicate. lia. }
  rewrite Heq. rewrite (Hcopy eq_refl). simpl.
  rewrite N.sub_0_r, !drop_0, drop_replicate, take_drop.
  unfold regrown; simpl. do 2 f_equal. f_equal. f_equal. lia.
Qed.

Lemma Reserve_grow v new_capacity :
  wf v → capacity_ v < new_capacity →
  Reserve v new_capacity = Ok (regrown v new_capacity).
Proof.
  intros Hwf Hlt. unfold Reserve.
  replace (capacity_ v <? new_capacity) with true
    by (symmetry; by apply N.ltb_lt).
  rewrite SimpleVector_sized_spec. simpl.
  rewrite copy_into_fresh by (done || (destruct Hwf; lia)). done.
Qed.

Lemma Reserve_keep v new_capacity :
  new_capacity ≤ capacity_ v → Reserve v new_capacity = Ok v.
Proof.
  intros Hle. unfold Reserve.
  by replace (capacity_ v <? new_capacity) with false
    by (symmetry; by apply N.ltb_ge).
Qed.

(** Moving the live elements into a fresh vector of [c] slots, as the
    move overload of [PushBack] and [Resize] do. *)
Lemma move_into_fresh v c :
  wf v → size_ v ≤ c →
  ∃ src',
    move_into (size_ v) (items_ v)
      (mkVector c c (replicate (N.to_nat c) default_value))
    = Ok (src', mkVector c c (items_ (regrown v c))).
Proof.
  intros (Hsz & Hlen & Hcap) Hc.
  destruct (move_into_spec (size_ v) (items_ v)
              (mkVector c c (replicate (N.to_nat c) default_value)))
    as (src' & Heq); simpl.
  { lia. } { rewrite length_replicate. lia. } { done. }
  exists src'. rewrite Heq. unfold with_items, regrown; simpl.
  rewrite drop_replicate. do 2 f_equal. f_equal. f_equal. f_equal. lia.
Qed.

(** Without wrap-around the two growth expressions of the header are the
    policy of the specification. *)
Lemma grown_capacity_policy c :
  c * 2 < SIZE_MODULUS → grown_capacity c = growth_policy c.
Proof.
  intros Hc. unfold grown_capacity, growth_policy.
  rewrite !wrap_small by (unfold SIZE_MODULUS in *; lia). lia.
Qed.

Lemma doubled_capacity_policy c :
  c * 2 < SIZE_MODULUS →
  (if c =? 0 then 1 else wrap (c * 2)) = growth_policy c.
Proof.
  intros Hc. unfold growth_policy.
  destruct (N.eqb_spec c 0) as [->|Hne]; [done|].
  rewrite wrap_small by done. lia.
Qed.

Lemma growth_policy_gt c : c < growth_policy c.
Proof. unfold growth_policy. lia. Qed.

Lemma growth_policy_bound c :
  c * 2 < SIZE_MODULUS → growth_policy c < SIZE_MODULUS.
Proof. unfold growth_policy, SIZE_MODULUS. lia. Qed.

Lemma before_store_wf v :
  wf v → (size_ v = capacity_ v → capacity_ v * 2 < SIZE_MODULUS) →
  wf (before_store v) ∧ size_ (before_store v) = size_ v ∧
  size_ v < capacity_ (before_store v) ∧
  live (before_store v) = live v.
Proof.
  intros Hwf Hnw. unfold before_store.
  destruct (N.eqb_spec (size_ v) (capacity_ v)) as [Heq|Hne].
  - pose proof (growth_policy_gt (capacity_ v)).
    pose proof (growth_policy_bound (capacity_ v) (Hnw Heq)).
    split; [apply wf_regrown; done || lia|].
    split; [done|]. split; [simpl; lia|].
    apply live_regrown; done || lia.
  - destruct Hwf as (Hsz & Hlen & Hcap).
    repeat split; done || lia.
Qed.

(** [*end() = item; ++size_;] with room for the element. *)
Lemma store_at_end v x :
  wf v → size_ v < capacity_ v →
  (raw (ArrayPtr.set (items_ v) (size_ v) x) ≫=
     λ p, Ok (mkVector (size_incr (size_ v)) (capacity_ v) p))
  = Ok (T:=T) (mkVector (size_ v + 1) (capacity_ v)
                 (<[N.to_nat (size_ v) := x]> (items_ v))).
Proof.
  intros (Hsz & Hlen & Hcap) Hroom. unfold ArrayPtr.set.
  rewrite decide_True by lia. simpl.
  by rewrite size_incr_small by lia.
Qed.

Lemma PushBack_spec v x :
  wf v → (size_ v = capacity_ v → capacity_ v * 2 < SIZE_MODULUS) →
  PushBack v x = Ok (after_store v x).
Proof.
  intros Hwf Hnw.
  destruct (before_store_wf v Hwf Hnw) as (Hwf1 & Hsz1 & Hroom & _).
  assert (Hgrow : (if size_ v =? capacity_ v
                   then Reserve v (if capacity_ v =? 0 then 1
                                   else wrap (capacity_ v * 2))
                   else Ok v) = Ok (before_store v)).
  { unfold before_store.
    destruct (N.eqb_spec (size_ v) (capacity_ v)) as [Heq|Hne]; [|done].
    rewrite doubled_capacity_policy by auto.
    apply Reserve_grow; [done | apply growth_policy_gt]. }
  unfold PushBack. rewrite Hgrow. simpl.
  rewrite store_at_end by (done || lia).
  unfold after_store. by rewrite Hsz1.
Qed.

Lemma PushBack_move_spec v x :
  wf v → (size_ v = capacity_ v → capacity_ v * 2 < SIZE_MODULUS) →
  PushBack_move v x = Ok (after_store v x).
Proof.
  intros Hwf Hnw.
  destruct (before_store_wf v Hwf Hnw) as (Hwf1 & Hsz1 & Hroom & _).
  assert (Hgrow : (if size_ v =? capacity_ v then
                     temp_vector ← SimpleVector_sized
                                     (grown_capacity (capacity_ v));
                     '(_, temp') ← move_into (size_ v) (items_ v) temp_vector;
                     Ok (mkVector (size_ v) (capacity_ temp') (items_ temp'))
                   else Ok v) = Ok (before_store v)).
  { unfold before_store.
    destruct (N.eqb_spec (size_ v) (capacity_ v)) as [Heq|Hne]; [|done].
    rewrite grown_capacity_policy by auto.
    rewrite SimpleVector_sized_spec. simpl.
    pose proof (growth_policy_gt (capacity_ v)).
    destruct (move_into_fresh v (growth_policy (capacity_ v)))
      as (src' & Hmv); [done | lia |].
    by rewrite Hmv. }
  unfold PushBack_move. rewrite Hgrow. simpl.
  rewrite store_at_end by (done || lia).
  unfold after_store. by rewrite Hsz1.
Qed.

Lemma after_store_wf v x :
  wf v → (size_ v = capacity_ v → capacity_ v * 2 < SIZE_MODULUS) →
  wf (after_store v x).
Proof.
  intros Hwf Hnw.
  destruct (before_store_wf v Hwf Hnw) as ((Hs & Hl & Hc) & Hsz1 & Hroom & _).
  unfold wf, after_store; simpl. rewrite length_insert. lia.
Qed.

Lemma after_store_live v x l :
  wf v → (size_ v = capacity_ v → capacity_ v * 2 < SIZE_MODULUS) →
  live v = Some l → live (after_store v x) = Some (l ++ [x]).
Proof.
  intros Hwf Hnw Hl.
  destruct (before_store_wf v Hwf Hnw) as (Hwf1 & Hsz1 & Hroom & Hlive).
  rewrite Hl, (live_wf _ Hwf1), Hsz1 in Hlive.
  injection Hlive as Hlive.
  destruct Hwf1 as (Hs & Hlen & Hc).
  unfold live, after_store; simpl.
  rewrite decide_True by (rewrite length_insert; lia).
  f_equal. replace (N.to_nat (size_ v + 1)) with (S (N.to_nat (size_ v))) by lia.
  erewrite take_S_r.
  - rewrite take_insert_ge by lia. by rewrite Hlive.
  - apply list_lookup_insert_eq. lia.
Qed.

Lemma capacity_after_step (k : nat) :
  capacity_after (S k)
  = if N.of_nat k =? capacity_after k then growth_policy (capacity_after k)
    else capacity_after k.
Proof. done. Qed.

Lemma append_spec v op :
  wf v → (size_ v = capacity_ v → capacity_ v * 2 < SIZE_MODULUS) →
  append v op = Ok (after_store v op.2).
Proof.
  intros Hwf Hnw. unfold append.
  destruct op.1; [by apply PushBack_move_spec | by apply PushBack_spec].
Qed.

Lemma append_all_spec (ops : list (bool * T)) : ∀ (k : nat) v l,
  wf v → size_ v = N.of_nat k → capacity_ v = capacity_after k →
  N.of_nat (k + length ops) ≤ 2 ^ 63 → live v = Some l →
  ∃ v', append_all v ops = Ok v' ∧ wf v' ∧
        size_ v' = N.of_nat (k + length ops) ∧
        capacity_ v' = capacity_after (k + length ops) ∧
        live v' = Some (l ++ ops.*2).
Proof.
  induction ops as [|op ops IH]; intros k v l Hwf Hsz Hcap Hbound Hl.
  - exists v. rewrite Nat.add_0_r, app_nil_r. done.
  - simpl in Hbound.
    assert (Hnw : size_ v = capacity_ v → capacity_ v * 2 < SIZE_MODULUS).
    { intros Heq. unfold SIZE_MODULUS. lia. }
    simpl. rewrite append_spec by done. simpl.
    destruct (IH (S k) (after_store v op.2) (l ++ [op.2]))
      as (v' & Hrun & Hwf' & Hsz' & Hcap' & Hl').
    + by apply after_store_wf.
    + unfold after_store; simpl. lia.
    + rewrite capacity_after_step. unfold after_store, before_store; simpl.
      rewrite <- Hsz, <- Hcap. by destruct (size_ v =? capacity_ v).
    + lia.
    + by apply after_store_live.
    + exists v'. rewrite Hrun.
      replace (k + S (length ops))%nat with (S k + length ops)%nat by lia.
      rewrite <- app_assoc in Hl'. done.
Qed.

End Growth.

(** ** Insertion and removal at a position *)
Section Positions.
Context {T : Type} `{Element T}.
Implicit Types (v : SimpleVector T) (P Q R : list T) (x y : T).

Lemma position_guard (size : N) (n : nat) :
  N.of_nat n ≤ size →
  (0 <=? Z.of_nat n)%Z && (Z.of_nat n <=? Z.of_N size)%Z = true.
Proof.
  intros Hle. apply andb_true_iff. split; apply Z.leb_le; lia.
Qed.

Lemma strict_position_guard (size : N) (n : nat) :
  N.of_nat n < size →
  (0 <=? Z.of_nat n)%Z && (Z.of_nat n <? Z.of_N size)%Z = true.
Proof.
  intros Hlt. apply andb_true_iff. split; [apply Z.leb_le | apply Z.ltb_lt]; lia.
Qed.

(** Insertion with a free slot behind the live elements: the suffix [Q]
    is shifted over the first dead slot [y]. *)
Lemma Insert_room mv v P Q y R x :
  wf v → items_ v = P ++ Q ++ y :: R →
  size_ v = N.of_nat (length P + length Q) →
  Insert_with mv v (Z.of_nat (length P)) x
  = Ok (Z.of_nat (length P),
        mkVector (size_ v + 1) (capacity_ v) (P ++ x :: Q ++ R)).
Proof.
  intros (Hsz & Hlen & Hcap) Hitems Hsize.
  rewrite Hitems, !length_app in Hlen. simpl in Hlen.
  unfold Insert_with. rewrite position_guard by lia.
  replace (Z.to_N (Z.of_nat (length P))) with (N.of_nat (length P)) by lia.
  replace (size_ v =? capacity_ v) with false
    by (symmetry; apply N.eqb_neq; lia).
  unfold std_transfer_backward.
  replace (N.to_nat (size_ v - N.of_nat (length P))) with (length Q) by lia.
  rewrite Hitems.
  destruct (backward_loop_shift mv Q P y R (size_ v)) as (g & Hg); [lia|].
  rewrite Hg. simpl.
  rewrite (raw_assign_middle _ P g (Q ++ R) _ x) by (done || simpl; lia).
  simpl. unfold with_size, with_items; simpl.
  by rewrite nat_N_Z, size_incr_small by lia.
Qed.

(** Insertion into a full container: prefix, value and suffix are laid
    out in a fresh block of the grown capacity. *)
Lemma Insert_full mv v P Q x :
  wf v → items_ v = P ++ Q → size_ v = capacity_ v →
  capacity_ v * 2 < SIZE_MODULUS →
  Insert_with mv v (Z.of_nat (length P)) x
  = Ok (Z.of_nat (length P),
        mkVector (size_ v + 1) (growth_policy (capacity_ v))
          (P ++ x :: Q
             ++ replicate
                  (N.to_nat (growth_policy (capacity_ v) - size_ v - 1))
                  default_value)).
Proof.
  intros (Hsz & Hlen & Hcap) Hitems Hfull Hnw.
  rewrite Hitems, length_app in Hlen.
  pose proof (growth_policy_gt (capacity_ v)) as Hgt.
  set (c := growth_policy (capacity_ v)) in *.
  set (tail := replicate (N.to_nat (c - size_ v - 1)) (default_value (T:=T))).
  assert (Hrep : replicate (N.to_nat c) (default_value (T:=T))
                 = replicate (length P) default_value
                     ++ default_value :: replicate (length Q) default_value
                     ++ tail).
  { subst tail.
    replace (N.to_nat c)
      with (length P + S (length Q + N.to_nat (c - size_ v - 1)))%nat by lia.
    rewrite replicate_add. simpl. by rewrite replicate_add. }
  unfold Insert_with. rewrite position_guard by lia.
  replace (Z.to_N (Z.of_nat (length P))) with (N.of_nat (length P)) by lia.
  replace (size_ v =? capacity_ v) with true
    by (symmetry; by apply N.eqb_eq).
  rewrite grown_capacity_policy by done. fold c.
  rewrite SimpleVector_sized_spec. simpl. rewrite Hrep, Hitems.
  destruct (std_transfer_segment mv P [] Q []
              (replicate (length P) default_value)
              (default_value :: replicate (length Q) default_value ++ tail)
              0 (N.of_nat (length P)) 0) as (P' & HP' & _ & Hfirst).
  { by rewrite length_replicate. } { done. } { simpl; lia. } { done. }
  simpl in Hfirst. rewrite Hfirst. simpl.
  unfold subscript_assign. simpl.
  replace (N.of_nat (length P) <? c) with true
    by (symmetry; apply N.ltb_lt; lia).
  rewrite (raw_assign_middle _ P default_value
             (replicate (length Q) default_value ++ tail) _ x)
    by (done || simpl; lia).
  simpl. unfold std_transfer.
  replace (N.to_nat (size_ v - N.of_nat (length P))) with (length Q) by lia.
  destruct (forward_loop_segment mv Q P' [] (P ++ [x])
              (replicate (length Q) default_value) tail
              (N.of_nat (length P)) (N.of_nat (length P) + 1))
    as (Q' & _ & _ & Hsecond).
  { by rewrite length_replicate. } { lia. }
  { rewrite length_app; simpl; lia. }
  rewrite app_nil_r, <- app_assoc in Hsecond. simpl in Hsecond.
  rewrite Hsecond. simpl. unfold with_size; simpl.
  rewrite nat_N_Z, size_incr_small by (unfold SIZE_MODULUS in *; lia).
  by rewrite <- app_assoc.
Qed.

(** Removal: the suffix [Q] moves one slot to the left and the slot that
    held its last element keeps some value [g]. *)
Lemma Erase_spec v P x Q R :
  wf v → items_ v = P ++ x :: Q ++ R →
  size_ v = N.of_nat (length P + 1 + length Q) →
  ∃ g, Erase v (Z.of_nat (length P))
       = Ok (Z.of_nat (length P),
             mkVector (size_ v - 1) (capacity_ v) (P ++ Q ++ g :: R)).
Proof.
  intros (Hsz & Hlen & Hcap) Hitems Hsize.
  unfold Erase. rewrite strict_position_guard by lia.
  replace (Z.to_N (Z.of_nat (length P))) with (N.of_nat (length P)) by lia.
  rewrite wrap_small by lia.
  unfold for_range.
  replace (N.to_nat (size_ v - (N.of_nat (length P) + 1)))
    with (length Q) by lia.
  rewrite Hitems.
  destruct (erase_loop Q P x R (N.of_nat (length P) + 1)) as (g & Hg);
    [lia | lia |].
  exists g. rewrite Hg. simpl.
  by rewrite nat_N_Z, size_decr_pos by lia.
Qed.

End Positions.

(** ** Resizing *)
Section Resizing.
Context {T : Type} `{Element T}.
Implicit Types (v : SimpleVector T).

(** The first half of [Resize]: after it the block has room for
    [new_size] elements and the live elements are where they were. *)
Lemma Resize_make_room v new_size :
  wf v →
  ∃ v1,
    (if capacity_ v <? new_size then
       temp_vec ← SimpleVector_sized
                    (N.max new_size (wrap (capacity_ v * 2)));
       '(_, temp') ← move_into (size_ v) (items_ v) temp_vec;
       Ok (mkVector (size_ v) (capacity_ temp') (items_ temp'))
     else Ok v) = Ok v1 ∧
    size_ v1 = size_ v ∧ new_size ≤ capacity_ v1 ∧
    N.of_nat (length (items_ v1)) = capacity_ v1 ∧
    take (N.to_nat (size_ v)) (items_ v1)
    = take (N.to_nat (size_ v)) (items_ v).
Proof.
  intros Hwf. pose proof Hwf as (Hsz & Hlen & Hcap).
  destruct (N.ltb_spec (capacity_ v) new_size) as [Hlt|Hge].
  - set (c := N.max new_size (wrap (capacity_ v * 2))).
    rewrite SimpleVector_sized_spec. simpl.
    destruct (move_into_fresh v c) as (src' & Hmv); [done | lia |].
    rewrite Hmv. simpl. eexists. split; [done|]. simpl.
    split; [done|]. split; [lia|]. split.
    + rewrite length_app, length_take, length_replicate. lia.
    + rewrite take_app_length'; [done|]. rewrite length_take. lia.
  - exists v. repeat split; done || lia.
Qed.

Lemma Resize_grow v new_size :
  wf v → size_ v ≤ new_size →
  ∃ v', Resize v new_size = Ok v' ∧ size_ v' = new_size ∧
        new_size ≤ capacity_ v' ∧
        live v' = Some (take (N.to_nat (size_ v)) (items_ v)
                          ++ replicate (N.to_nat (new_size - size_ v))
                               default_value).
Proof.
  intros Hwf Hle.
  destruct (Resize_make_room v new_size Hwf)
    as (v1 & Hroom & Hsz1 & Hcap1 & Hlen1 & Hkeep).
  unfold Resize. rewrite Hroom. simpl. rewrite Hsz1.
  destruct (N.ltb_spec (size_ v) new_size) as [Hlt|Hge].
  - rewrite fill_range by lia. simpl. eexists. split; [done|]. simpl.
    split; [done|]. split; [done|].
    unfold live; simpl.
    rewrite decide_True
      by (rewrite !length_app, length_take, length_replicate, length_drop;
          lia).
    f_equal. rewrite Hkeep, app_assoc.
    apply take_app_length'.
    rewrite length_app, length_take, length_replicate.
    destruct Hwf as (? & ? & ?). lia.
  - simpl. eexists. split; [done|]. simpl.
    split; [done|]. split; [done|].
    unfold live; simpl. rewrite decide_True by lia.
    replace new_size with (size_ v) by lia.
    by rewrite Hkeep, N.sub_diag, app_nil_r.
Qed.

Lemma wf_Clear v : wf v → wf (Clear v).
Proof. intros (Hsz & Hlen & Hcap). unfold wf, Clear; simpl. lia. Qed.

End Resizing.

(** ** Comparison *)
Section Ordering.
Context {T : Type} `{Element T} `{Comparable T}.
Implicit Types (l : list T).

Lemma lexicographical_compare_lex_lt l1 : ∀ l2,
  lexicographical_compare l1 l2 = true ↔ lex_lt l1 l2.
Proof.
  induction l1 as [|x l1 IH]; intros [|y l2]; simpl.
  - split; [done | inversion 1].
  - split; [intros _; constructor | done].
  - split; [done | inversion 1].
  - destruct (elt_ltb x y) eqn:Hxy.
    + split; [intros _; by constructor | done].
    + destruct (elt_ltb y x) eqn:Hyx.
      * split; [done | inversion 1; congruence].
      * rewrite IH. split; [by constructor | inversion 1; congruence || done].
Qed.

End Ordering.

(** ** Copying *)
Section Copying.
Context {T : Type} `{Element T}.
Implicit Types (v : SimpleVector T).

(** What the copy constructor builds from a well-formed source: the live
    elements in a block of [size_] slots, under the source's
    [capacity_]. *)
Lemma SimpleVector_copy_spec v :
  wf v →
  SimpleVector_copy v
  = Ok (mkVector (size_ v) (capacity_ v)
          (take (N.to_nat (size_ v)) (items_ v))).
Proof.
  intros (Hsz & Hlen & Hcap). unfold SimpleVector_copy, ArrayPtr.make. simpl.
  destruct (std_transfer_spec false (items_ v) 0 (size_ v)
              (replicate (N.to_nat (size_ v)) default_value) 0)
    as (seg' & _ & _ & Heq).
  { lia. } { lia. } { rewrite length_replicate. lia. }
  rewrite Heq. simpl. unfold with_items; simpl.
  rewrite N.sub_0_r, drop_0.
  rewrite drop_ge by (rewrite length_replicate; lia).
  by rewrite app_nil_r.
Qed.

End Copying.

(** ** Insertion at the end, and removal followed by insertion *)
Section RoundTrips.
Context {T : Type} `{Element T}.
Implicit Types (v : SimpleVector T) (x : T).

Lemma insert_at_length (P R : list T) y x :
  <[length P := x]> (P ++ y :: R) = P ++ x :: R.
Proof. rewrite insert_app_r_alt by lia. by rewrite Nat.sub_diag. Qed.

Lemma Insert_at_end mv v x :
  wf v → (size_ v = capacity_ v → capacity_ v * 2 < SIZE_MODULUS) →
  Insert_with mv v (Z.of_N (size_ v)) x
  = Ok (Z.of_N (size_ v), after_store v x).
Proof.
  intros Hwf Hnw. pose proof Hwf as (Hsz & Hlen & Hcap).
  set (P := take (N.to_nat (size_ v)) (items_ v)).
  assert (HP : length P = N.to_nat (size_ v)).
  { subst P. rewrite length_take. lia. }
  assert (Hitems : items_ v = P ++ drop (N.to_nat (size_ v)) (items_ v)).
  { subst P. by rewrite take_drop. }
  replace (Z.of_N (size_ v)) with (Z.of_nat (length P)) by lia.
  unfold after_store, before_store.
  destruct (N.eqb_spec (size_ v) (capacity_ v)) as [Hfull|Hroom].
  - rewrite drop_ge, app_nil_r in Hitems by lia.
    rewrite (Insert_full mv v P [] x) by (rewrite ?app_nil_r; auto).
    pose proof (growth_policy_gt (capacity_ v)) as Hgt.
    do 3 f_equal. simpl. fold P. rewrite <- HP.
    replace (N.to_nat (growth_policy (capacity_ v) - size_ v))
      with (S (N.to_nat (growth_policy (capacity_ v) - size_ v - 1))) by lia.
    simpl. by rewrite insert_at_length.
  - destruct (drop (N.to_nat (size_ v)) (items_ v)) as [|y R] eqn:Hdrop.
    { apply (f_equal length) in Hdrop. rewrite length_drop in Hdrop.
      simpl in Hdrop. lia. }
    rewrite (Insert_room mv v P [] y R x) by (done || simpl; lia).
    do 3 f_equal. simpl. rewrite Hitems, <- HP. by rewrite insert_at_length.
Qed.

Lemma Erase_then_Insert mv v (i : N) x :
  wf v → i < size_ v → items_ v !! N.to_nat i = Some x →
  ∃ v1, Erase v (Z.of_N i) = Ok (Z.of_N i, v1) ∧
        size_ v1 = size_ v - 1 ∧ capacity_ v1 = capacity_ v ∧
        Insert_with mv v1 (Z.of_N i) x = Ok (Z.of_N i, v).
Proof.
  intros Hwf Hi Hx. pose proof Hwf as (Hsz & Hlen & Hcap).
  set (P := take (N.to_nat i) (items_ v)).
  set (Q := take (N.to_nat (size_ v) - S (N.to_nat i))
              (drop (S (N.to_nat i)) (items_ v))).
  set (R := drop (N.to_nat (size_ v)) (items_ v)).
  assert (HP : length P = N.to_nat i).
  { subst P. rewrite length_take. lia. }
  assert (HQ : length Q = (N.to_nat (size_ v) - S (N.to_nat i))%nat).
  { subst Q. rewrite length_take, length_drop. lia. }
  assert (Hitems : items_ v = P ++ x :: Q ++ R).
  { subst P Q R. rewrite <- (take_drop_middle _ _ _ Hx) at 1.
    do 2 f_equal.
    rewrite (split_block (drop (S (N.to_nat i)) (items_ v)) 0
               (N.to_nat (size_ v) - S (N.to_nat i))) at 1 by lia.
    rewrite take_0, drop_0, Nat.sub_0_r, drop_drop. simpl.
    do 2 f_equal. lia. }
  replace (Z.of_N i) with (Z.of_nat (length P)) by lia.
  destruct (Erase_spec v P x Q R) as (g & Herase); [done | done | lia |].
  eexists. split; [exact Herase|]. simpl.
  split; [done|]. split; [done|].
  rewrite (Insert_room mv _ P Q g R x); simpl.
  - rewrite <- Hitems. replace (size_ v - 1 + 1) with (size_ v) by lia.
    clear. by destruct v.
  - unfold wf; simpl. rewrite Hitems in Hlen.
    rewrite !length_app in *. simpl in *. rewrite !length_app in *.
    simpl in *. lia.
  - done.
  - lia.
Qed.

End RoundTrips.

(** * The properties of the specification *)

Lemma wf_default {T} `{Element T} : wf (SimpleVector_default (T:=T)).
Proof. unfold wf, SimpleVector_default; simpl. unfold SIZE_MODULUS. lia. Qed.

Lemma wf_three_of_four : wf three_of_four.
Proof. unfold wf, three_of_four; simpl. unfold SIZE_MODULUS. lia. Qed.

(** C1. The copy constructor gives the copy the size and the live
    elements of its source, but it takes [capacity_] from the source
    while it allocates a block of [size_] slots only.  On the container
    left by three appends (size 3, capacity 4) the copy reports capacity
    4, not 3, over a block of 3 slots, and the next append to the copy
    writes outside that block. *)
Theorem copy_keeps_source_capacity :
  append_all SimpleVector_default [(false, 5); (false, 7); (true, 9)]%Z
  = Ok three_of_four ∧
  SimpleVector_copy three_of_four = Ok (mkVector 3 4 [5; 7; 9]%Z) ∧
  GetSize three_of_four = 3 ∧
  (c ← SimpleVector_copy three_of_four; Ok (GetCapacity c)) = Ok (T:=Z) 4 ∧
  (c ← SimpleVector_copy three_of_four; Ok (length (items_ c)))
  = Ok (T:=Z) 3%nat ∧
  (c ← SimpleVector_copy three_of_four; PushBack c 11%Z) = Undefined.
Proof. repeat split; vm_compute; reflexivity. Qed.

(** C2, as stated, fails: inserting at position 100 of a container of
    three elements trips the assertion of [Insert]; no
    [std::out_of_range] is thrown by either overload. *)
Lemma Insert_outside_range_does_not_throw :
  Insert three_of_four 100 1%Z = AssertFail ∧
  Insert_move three_of_four 100 1%Z = AssertFail ∧
  Insert three_of_four 100 1%Z ≠ OutOfRange three_of_four ∧
  Insert_move three_of_four 100 1%Z ≠ OutOfRange three_of_four.
Proof. repeat split; vm_compute; congruence. Qed.

(** C2, amended.  For every container and every position outside
    [[0, size]], both overloads of [Insert] fail their assertion: the
    call is a precondition violation that aborts before anything is
    written, not a recoverable [OutOfRange]. *)
Theorem Insert_outside_range_asserts {T} `{Element T}
    (v : SimpleVector T) (pos : Z) (x : T) :
  (pos < 0 ∨ Z.of_N (size_ v) < pos)%Z →
  Insert v pos x = AssertFail ∧ Insert_move v pos x = AssertFail.
Proof.
  intros Hout. unfold Insert, Insert_move, Insert_with.
  replace ((0 <=? pos)%Z && (pos <=? Z.of_N (size_ v))%Z) with false; [done|].
  symmetry. apply andb_false_iff.
  destruct Hout; [left; apply Z.leb_gt | right; apply Z.leb_gt]; lia.
Qed.

Lemma Insert_outside_range_asserts_witness :
  (100 < 0 ∨ Z.of_N (size_ three_of_four) < 100)%Z ∧
  Insert three_of_four 100 1%Z = AssertFail ∧
  Insert_move three_of_four 100 1%Z = AssertFail.
Proof.
  split; [right; reflexivity|].
  apply (Insert_outside_range_asserts three_of_four 100 1%Z).
  right; reflexivity.
Defined.

(** C3.  Any run of [N] appends (by copy or by move, [N] at most
    [2^63]) to the empty container succeeds; afterwards the size is [N],
    the live elements are the appended values in order, and the capacity
    is the one obtained by applying the growth policy
    [max(capacity * 2, capacity + 1)] each time the capacity was
    exhausted.  After 1, 2 and 3 appends that capacity is 1, 2 and 4. *)
Theorem append_size_and_capacity {T} `{Element T} (ops : list (bool * T)) :
  N.of_nat (length ops) ≤ 2 ^ 63 →
  (∃ v, append_all SimpleVector_default ops = Ok v ∧
        GetSize v = N.of_nat (length ops) ∧
        GetCapacity v = capacity_after (length ops) ∧
        live v = Some (ops.*2)) ∧
  capacity_after 1 = 1 ∧ capacity_after 2 = 2 ∧ capacity_after 3 = 4.
Proof.
  intros Hbound. split; [|done].
  destruct (append_all_spec ops 0 SimpleVector_default [])
    as (v & Hrun & _ & Hsz & Hcap & Hlive).
  { apply wf_default. } { done. } { done. } { simpl; lia. } { done. }
  exists v. done.
Qed.

Lemma append_size_and_capacity_witness :
  N.of_nat (length [(false, 5); (false, 7); (true, 9)]%Z) ≤ 2 ^ 63 ∧
  ((∃ v, append_all SimpleVector_default [(false, 5); (false, 7); (true, 9)]%Z
         = Ok v ∧
         GetSize v = 3 ∧ GetCapacity v = capacity_after 3 ∧
         live v = Some [5; 7; 9]%Z) ∧
   capacity_after 1 = 1 ∧ capacity_after 2 = 2 ∧ capacity_after 3 = 4).
Proof.
  split; [by vm_compute|].
  apply (append_size_and_capacity [(false, 5); (false, 7); (true, 9)]%Z).
  by vm_compute.
Defined.

(** C4.  [At(index)] throws [std::out_of_range] exactly when
    [index >= size], and then the container is the one it was; for
    [index < size] it returns the element in slot [index], again leaving
    size, capacity and elements as they were. *)
Theorem At_checked_access {T} `{Element T} (v : SimpleVector T) (index : N) :
  wf v →
  (∀ v', At v index = OutOfRange v' ↔ size_ v ≤ index ∧ v' = v) ∧
  (index < size_ v →
   ∃ x, items_ v !! N.to_nat index = Some x ∧ At v index = Ok (x, v)).
Proof.
  intros (Hsz & Hlen & Hcap). unfold At. split.
  - intros v'. destruct (N.leb_spec (size_ v) index) as [Hle|Hlt].
    + split; [intros [= ->]; done | intros [_ ->]; done].
    + split; [|lia]. unfold ArrayPtr.get.
      destruct (items_ v !! N.to_nat index); simpl; done.
  - intros Hlt.
    destruct (lookup_lt_is_Some_2 (items_ v) (N.to_nat index)) as [x Hx];
      [lia|].
    exists x. split; [done|].
    replace (size_ v <=? index) with false
      by (symmetry; apply N.leb_gt; lia).
    unfold ArrayPtr.get. by rewrite Hx.
Qed.

Lemma At_checked_access_witness :
  wf three_of_four ∧
  (∀ v', At three_of_four 100 = OutOfRange v' ↔
         size_ three_of_four ≤ 100 ∧ v' = three_of_four) ∧
  (100 < size_ three_of_four →
   ∃ x, items_ three_of_four !! N.to_nat 100 = Some x ∧
        At three_of_four 100 = Ok (x, three_of_four)).
Proof.
  split; [exact wf_three_of_four|].
  apply (At_checked_access three_of_four 100). exact wf_three_of_four.
Defined.

(** C5.  [Reserve(new_capacity)] keeps the size and the live elements in
    order; when [new_capacity] exceeds the capacity the new capacity is
    exactly [new_capacity], carried by a block of exactly [new_capacity]
    slots: the live elements followed by default-valued slots.  Otherwise
    the container is not touched.  Either way the size stays within the
    capacity and the block has as many slots as the capacity says, and a
    second [Reserve] with the same argument changes nothing. *)
Theorem Reserve_exact_and_idempotent {T} `{Element T}
    (v : SimpleVector T) (new_capacity : N) :
  wf v →
  ∃ v' l, Reserve v new_capacity = Ok v' ∧
          live v = Some l ∧ live v' = Some l ∧
          GetSize v' = GetSize v ∧
          (capacity_ v < new_capacity →
           GetCapacity v' = new_capacity ∧
           N.of_nat (length (items_ v')) = new_capacity ∧
           items_ v' = l ++ replicate (N.to_nat (new_capacity - size_ v))
                              default_value) ∧
          (new_capacity ≤ capacity_ v → v' = v) ∧
          GetSize v' ≤ GetCapacity v' ∧
          N.of_nat (length (items_ v')) = GetCapacity v' ∧
          (new_capacity < 2 ^ 64 → wf v') ∧
          Reserve v' new_capacity = Ok v'.
Proof.
  intros Hwf. pose proof (live_wf v Hwf) as Hlive.
  pose proof Hwf as (Hsz & Hlen & Hcap).
  destruct (N.lt_ge_cases (capacity_ v) new_capacity) as [Hlt|Hge].
  - exists (regrown v new_capacity), (take (N.to_nat (size_ v)) (items_ v)).
    assert (Hblock : N.of_nat (length (items_ (regrown v new_capacity)))
                     = new_capacity).
    { unfold regrown; simpl.
      rewrite length_app, length_take, length_replicate. lia. }
    split; [by apply Reserve_grow|]. split; [done|].
    split; [by rewrite live_regrown by (done || lia)|].
    split; [done|]. split; [done|]. split; [lia|].
    split; [unfold GetSize, GetCapacity; simpl; lia|].
    split; [done|].
    split; [intros Hk; apply wf_regrown; done || lia|].
    apply Reserve_keep. simpl. lia.
  - exists v, (take (N.to_nat (size_ v)) (items_ v)).
    rewrite Reserve_keep by done.
    split; [done|]. split; [done|]. split; [done|]. split; [done|].
    split; [lia|]. done.
Qed.

Lemma Reserve_exact_and_idempotent_witness :
  wf three_of_four ∧
  ∃ v' l, Reserve three_of_four 10 = Ok v' ∧
          live three_of_four = Some l ∧ live v' = Some l ∧
          GetSize v' = GetSize three_of_four ∧
          (capacity_ three_of_four < 10 →
           GetCapacity v' = 10 ∧
           N.of_nat (length (items_ v')) = 10 ∧
           items_ v' = l ++ replicate (N.to_nat (10 - size_ three_of_four))
                              default_value) ∧
          (10 ≤ capacity_ three_of_four → v' = three_of_four) ∧
          GetSize v' ≤ GetCapacity v' ∧
          N.of_nat (length (items_ v')) = GetCapacity v' ∧
          (10 < 2 ^ 64 → wf v') ∧
          Reserve v' 10 = Ok v'.
Proof.
  split; [exact wf_three_of_four|].
  apply (Reserve_exact_and_idempotent three_of_four 10).
  exact wf_three_of_four.
Defined.

(** C6.  Inserting at the position [end()], by either overload of
    [Insert], leaves the container in the very state either overload of
    [PushBack] leaves it in: same elements, same size, same capacity
    (for a capacity below [2^63], where doubling does not wrap). *)
Theorem Insert_at_end_is_PushBack {T} `{Element T}
    (v : SimpleVector T) (x : T) :
  wf v → capacity_ v < 2 ^ 63 →
  ∃ v' l, PushBack v x = Ok v' ∧ PushBack_move v x = Ok v' ∧
          Insert v (Z.of_N (GetSize v)) x = Ok (Z.of_N (GetSize v), v') ∧
          Insert_move v (Z.of_N (GetSize v)) x
          = Ok (Z.of_N (GetSize v), v') ∧
          live v = Some l ∧ live v' = Some (l ++ [x]) ∧
          GetSize v' = GetSize v + 1.
Proof.
  intros Hwf Hcap.
  assert (Hnw : size_ v = capacity_ v → capacity_ v * 2 < SIZE_MODULUS).
  { intros _. unfold SIZE_MODULUS. lia. }
  exists (after_store v x), (take (N.to_nat (size_ v)) (items_ v)).
  split; [by apply PushBack_spec|].
  split; [by apply PushBack_move_spec|].
  split; [by apply Insert_at_end|].
  split; [by apply Insert_at_end|].
  split; [by apply live_wf|].
  split; [apply after_store_live; by try apply live_wf|].
  done.
Qed.

Lemma Insert_at_end_is_PushBack_witness :
  wf three_of_four ∧ capacity_ three_of_four < 2 ^ 63 ∧
  ∃ v' l, PushBack three_of_four 11%Z = Ok v' ∧
          PushBack_move three_of_four 11%Z = Ok v' ∧
          Insert three_of_four (Z.of_N (GetSize three_of_four)) 11%Z
          = Ok (Z.of_N (GetSize three_of_four), v') ∧
          Insert_move three_of_four (Z.of_N (GetSize three_of_four)) 11%Z
          = Ok (Z.of_N (GetSize three_of_four), v') ∧
          live three_of_four = Some l ∧ live v' = Some (l ++ [11%Z]) ∧
          GetSize v' = GetSize three_of_four + 1.
Proof.
  split; [exact wf_three_of_four|]. split; [by vm_compute|].
  apply (Insert_at_end_is_PushBack three_of_four 11%Z).
  - exact wf_three_of_four.
  - by vm_compute.
Defined.

(** C7.  For a valid position [i], [Erase] at [i] followed by [Insert]
    at [i] of the element that was removed, by either overload, gives
    back the container it started from: the same size and the same live
    elements (and the same capacity). *)
Theorem Erase_then_Insert_restores {T} `{Element T}
    (v : SimpleVector T) (i : N) (x : T) :
  wf v → i < size_ v → items_ v !! N.to_nat i = Some x →
  ∃ v1, Erase v (Z.of_N i) = Ok (Z.of_N i, v1) ∧
        GetSize v1 = GetSize v - 1 ∧
        Insert v1 (Z.of_N i) x = Ok (Z.of_N i, v) ∧
        Insert_move v1 (Z.of_N i) x = Ok (Z.of_N i, v).
Proof.
  intros Hwf Hi Hx.
  destruct (Erase_then_Insert false v i x Hwf Hi Hx)
    as (v1 & Herase & Hsz & _ & Hcopy).
  destruct (Erase_then_Insert true v i x Hwf Hi Hx)
    as (v2 & Herase' & _ & _ & Hmove).
  rewrite Herase in Herase'. injection Herase' as <-.
  exists v1. done.
Qed.

Lemma Erase_then_Insert_restores_witness :
  wf three_of_four ∧ 1 < size_ three_of_four ∧
  items_ three_of_four !! N.to_nat 1 = Some 7%Z ∧
  ∃ v1, Erase three_of_four (Z.of_N 1) = Ok (Z.of_N 1, v1) ∧
        GetSize v1 = GetSize three_of_four - 1 ∧
        Insert v1 (Z.of_N 1) 7%Z = Ok (Z.of_N 1, three_of_four) ∧
        Insert_move v1 (Z.of_N 1) 7%Z = Ok (Z.of_N 1, three_of_four).
Proof.
  split; [exact wf_three_of_four|]. split; [by vm_compute|].
  split; [reflexivity|].
  apply (Erase_then_Insert_restores three_of_four 1 7%Z).
  - exact wf_three_of_four.
  - by vm_compute.
  - reflexivity.
Defined.

(** C8.  [a < b] holds exactly when the live elements of [a] come before
    those of [b] in lexicographic order, a proper prefix before the
    longer sequence; [>] is [<] with the operands exchanged, [<=] and
    [>=] are the negations of [>] and [<], and [!=] is the negation of
    [==].  In particular [[1,2] < [1,2,3] < [2]]. *)
Theorem ordering_is_lexicographic {T} `{Element T} `{Comparable T}
    (a b : SimpleVector T) (la lb : list T) :
  live a = Some la → live b = Some lb →
  ∃ r r', op_lt a b = Ok r ∧ op_lt b a = Ok r' ∧
          (r = true ↔ lex_lt la lb) ∧ (r' = true ↔ lex_lt lb la) ∧
          op_gt a b = Ok r' ∧
          op_le a b = Ok (negb r') ∧
          op_ge a b = Ok (negb r) ∧
          (∀ h pa pb e, op_eq h pa pb = Ok e →
                        op_ne h pa pb = Ok (negb e)) ∧
          (x ← SimpleVector_init [1; 2]%Z;
           y ← SimpleVector_init [1; 2; 3]%Z;
           z ← SimpleVector_init [2]%Z;
           xy ← op_lt x y; yz ← op_lt y z; Ok (xy, yz))
          = Ok (T:=Z) (true, true).
Proof.
  intros Ha Hb.
  exists (lexicographical_compare la lb), (lexicographical_compare lb la).
  assert (Hab : op_lt a b = Ok (lexicographical_compare la lb)).
  { unfold op_lt. by rewrite Ha, Hb. }
  assert (Hba : op_lt b a = Ok (lexicographical_compare lb la)).
  { unfold op_lt. by rewrite Ha, Hb. }
  split; [done|]. split; [done|].
  split; [apply lexicographical_compare_lex_lt|].
  split; [apply lexicographical_compare_lex_lt|].
  split; [done|].
  split; [unfold op_le, op_gt; by rewrite Hba|].
  split; [unfold op_ge; by rewrite Hab|].
  split; [|vm_compute; reflexivity].
  intros h pa pb e He. unfold op_ne. by rewrite He.
Qed.

Lemma ordering_is_lexicographic_witness :
  live (mkVector 2 2 [1; 2]%Z) = Some [1; 2]%Z ∧
  live (mkVector 3 3 [1; 2; 3]%Z) = Some [1; 2; 3]%Z ∧
  ∃ r r', op_lt (mkVector 2 2 [1; 2]%Z) (mkVector 3 3 [1; 2; 3]%Z) = Ok r ∧
          op_lt (mkVector 3 3 [1; 2; 3]%Z) (mkVector 2 2 [1; 2]%Z) = Ok r' ∧
          (r = true ↔ lex_lt [1; 2]%Z [1; 2; 3]%Z) ∧
          (r' = true ↔ lex_lt [1; 2; 3]%Z [1; 2]%Z) ∧
          op_gt (mkVector 2 2 [1; 2]%Z) (mkVector 3 3 [1; 2; 3]%Z) = Ok r' ∧
          op_le (mkVector 2 2 [1; 2]%Z) (mkVector 3 3 [1; 2; 3]%Z)
          = Ok (negb r') ∧
          op_ge (mkVector 2 2 [1; 2]%Z) (mkVector 3 3 [1; 2; 3]%Z)
          = Ok (negb r) ∧
          (∀ h pa pb e, op_eq (T:=Z) h pa pb = Ok e →
                        op_ne h pa pb = Ok (negb e)) ∧
          (x ← SimpleVector_init [1; 2]%Z;
           y ← SimpleVector_init [1; 2; 3]%Z;
           z ← SimpleVector_init [2]%Z;
           xy ← op_lt x y; yz ← op_lt y z; Ok (xy, yz))
          = Ok (T:=Z) (true, true).
Proof.
  split; [reflexivity|]. split; [reflexivity|].
  apply (ordering_is_lexicographic
           (mkVector 2 2 [1; 2]%Z) (mkVector 3 3 [1; 2; 3]%Z)
           [1; 2]%Z [1; 2; 3]%Z); reflexivity.
Defined.

(** C9.  Assigning a vector to itself, by the copy or by the move
    assignment operator, leaves the store of objects as it was: the
    vector keeps its size, its capacity and its elements. *)
Theorem self_assignment_unchanged {T} `{Element T}
    (h : gmap N (SimpleVector T)) (this : N) :
  assign_copy h this this = Ok h ∧ assign_move h this this = Ok h.
Proof.
  unfold assign_copy, assign_move.
  destruct (decide (this = this)) as [_|Hne]; [done | by destruct Hne].
Qed.

(** C10.  [Clear] followed by [Resize(n)] leaves [n] live elements that
    all have the default value; in general a growing [Resize] keeps the
    live elements and gives every newly exposed slot the default value,
    whatever the slot held before. *)
Theorem Clear_then_Resize_defaults {T} `{Element T}
    (v : SimpleVector T) (n : N) :
  wf v →
  (∃ v', Resize (Clear v) n = Ok v' ∧ GetSize v' = n ∧
         live v' = Some (replicate (N.to_nat n) default_value)) ∧
  (size_ v ≤ n →
   ∃ v' l, Resize v n = Ok v' ∧ GetSize v' = n ∧ live v = Some l ∧
           live v' = Some (l ++ replicate (N.to_nat (n - size_ v))
                                  default_value)).
Proof.
  intros Hwf. split.
  - destruct (Resize_grow (Clear v) n (wf_Clear v Hwf))
      as (v' & Hres & Hsz & _ & Hlive); [simpl; lia|].
    exists v'. split; [done|]. split; [done|].
    rewrite Hlive. simpl. by rewrite N.sub_0_r.
  - intros Hle.
    destruct (Resize_grow v n Hwf Hle) as (v' & Hres & Hsz & _ & Hlive).
    exists v', (take (N.to_nat (size_ v)) (items_ v)).
    split; [done|]. split; [done|]. split; [by apply live_wf|]. done.
Qed.

Lemma Clear_then_Resize_defaults_witness :
  wf three_of_four ∧
  (∃ v', Resize (Clear three_of_four) 3 = Ok v' ∧ GetSize v' = 3 ∧
         live v' = Some (replicate (N.to_nat 3) default_value)) ∧
  (size_ three_of_four ≤ 3 →
   ∃ v' l, Resize three_of_four 3 = Ok v' ∧ GetSize v' = 3 ∧
           live three_of_four = Some l ∧
           live v' = Some (l ++ replicate (N.to_nat (3 - size_ three_of_four))
                                  default_value)).
Proof.
  split; [exact wf_three_of_four|].
  apply (Clear_then_Resize_defaults three_of_four 3).
  exact wf_three_of_four.
Defined.

(** * Further properties of the header *)

(** ** Constructors and element access *)
Section Construction.
Context {T : Type} `{Element T}.
Implicit Types (v : SimpleVector T) (x : T) (l : list T).

Lemma SimpleVector_filled_spec (size : N) x :
  SimpleVector_filled size x
  = Ok (mkVector size size (replicate (N.to_nat size) x)).
Proof.
  unfold SimpleVector_filled. rewrite fill_range; simpl.
  - unfold ArrayPtr.make, with_items. simpl. do 2 f_equal.
    rewrite N.sub_0_r, drop_ge by (rewrite length_replicate; lia).
    by rewrite app_nil_r.
  - lia.
  - unfold ArrayPtr.make. rewrite length_replicate. lia.
Qed.

Lemma SimpleVector_init_spec l :
  SimpleVector_init l
  = Ok (mkVector (N.of_nat (length l)) (N.of_nat (length l)) l).
Proof.
  unfold SimpleVector_init, ArrayPtr.make. rewrite Nat2N.id.
  destruct (std_transfer_segment false l [] [] []
              (replicate (length l) default_value) []
              0 (N.of_nat (length l)) 0) as (l' & _ & _ & Heq).
  { by rewrite length_replicate. } { done. } { simpl; lia. } { done. }
  simpl in Heq. rewrite !app_nil_r in Heq. by rewrite Heq.
Qed.

Lemma live_exact (n : N) (c : N) l :
  N.to_nat n = length l → live (mkVector n c l) = Some l.
Proof.
  intros Hn. unfold live; simpl. rewrite decide_True by lia.
  f_equal. rewrite Hn. apply firstn_all.
Qed.

Lemma At_in_range v (i : N) x :
  i < size_ v → items_ v !! N.to_nat i = Some x → At v i = Ok (x, v).
Proof.
  intros Hi Hx. unfold At.
  replace (size_ v <=? i) with false by (symmetry; apply N.leb_gt; lia).
  unfold ArrayPtr.get. by rewrite Hx.
Qed.

End Construction.

(** X1.  The constructors from a size build a container whose size and
    capacity are that size and whose elements all are the default value
    ([SimpleVector(size)]) or the given value
    ([SimpleVector(size, value)]). *)
Theorem sized_constructors_fill {T} `{Element T} (size : N) (value : T) :
  (∃ v, SimpleVector_sized size = Ok v ∧
        GetSize v = size ∧ GetCapacity v = size ∧
        live v = Some (replicate (N.to_nat size) default_value)) ∧
  (∃ v, SimpleVector_filled size value = Ok v ∧
        GetSize v = size ∧ GetCapacity v = size ∧
        live v = Some (replicate (N.to_nat size) value)).
Proof.
  split.
  - rewrite SimpleVector_sized_spec. eexists. split; [done|].
    repeat split. apply live_exact. by rewrite length_replicate.
  - rewrite SimpleVector_filled_spec. eexists. split; [done|].
    repeat split. apply live_exact. by rewrite length_replicate.
Qed.

(** X2.  Construction from an initializer list and checked access are a
    round trip: the container has as many elements (and slots) as the
    list, its live elements are the list, and [At(i)] returns the
    [i]-th item of the list without changing the container. *)
Theorem init_then_At {T} `{Element T} (init : list T) :
  ∃ v, SimpleVector_init init = Ok v ∧
       GetSize v = N.of_nat (length init) ∧
       GetCapacity v = N.of_nat (length init) ∧
       live v = Some init ∧
       (∀ (i : N) x, init !! N.to_nat i = Some x → At v i = Ok (x, v)) ∧
       At v (N.of_nat (length init)) = OutOfRange v.
Proof.
  rewrite SimpleVector_init_spec. eexists. split; [done|].
  split; [done|]. split; [done|].
  split; [apply live_exact; lia|]. split.
  - intros i x Hx. apply At_in_range; simpl; [|done].
    apply lookup_lt_Some in Hx. lia.
  - unfold At; simpl. by rewrite N.leb_refl.
Qed.

(** X3.  Inside the live range the unchecked [operator[]] and the
    checked [At] return the same element and leave the container alone;
    from [size] on they part: [operator[]] fails its assertion where
    [At] throws. *)
Theorem subscript_and_At {T} `{Element T} (v : SimpleVector T) (index : N) :
  wf v →
  (index < size_ v →
   ∃ x, subscript v index = Ok (x, v) ∧ At v index = Ok (x, v)) ∧
  (size_ v ≤ index →
   subscript v index = AssertFail ∧ At v index = OutOfRange v).
Proof.
  intros (Hsz & Hlen & Hcap). split.
  - intros Hlt.
    destruct (lookup_lt_is_Some_2 (items_ v) (N.to_nat index)) as [x Hx];
      [lia|].
    exists x. split; [|by apply At_in_range].
    unfold subscript.
    replace (index <? size_ v) with true by (symmetry; by apply N.ltb_lt).
    unfold ArrayPtr.get. by rewrite Hx.
  - intros Hge. unfold subscript, At.
    replace (index <? size_ v) with false by (symmetry; by apply N.ltb_ge).
    by replace (size_ v <=? index) with true by (symmetry; by apply N.leb_le).
Qed.

Lemma subscript_and_At_witness :
  wf three_of_four ∧
  (1 < size_ three_of_four →
   ∃ x, subscript three_of_four 1 = Ok (x, three_of_four) ∧
        At three_of_four 1 = Ok (x, three_of_four)) ∧
  (size_ three_of_four ≤ 1 →
   subscript three_of_four 1 = AssertFail ∧
   At three_of_four 1 = OutOfRange three_of_four).
Proof.
  split; [exact wf_three_of_four|].
  apply (subscript_and_At three_of_four 1). exact wf_three_of_four.
Defined.

(** ** Removal and insertion on the live elements *)
Section LiveElements.
Context {T : Type} `{Element T}.
Implicit Types (v : SimpleVector T) (x y : T) (l P Q R : list T).

Lemma live_prefix (n c : N) l R :
  N.to_nat n = length l → live (mkVector n c (l ++ R)) = Some l.
Proof.
  intros Hn. unfold live; simpl.
  rewrite decide_True by (rewrite length_app; lia).
  f_equal. by apply take_app_length'.
Qed.

(** The block of a well-formed container: its live elements, then the
    slots behind them. *)
Lemma live_block v l :
  wf v → live v = Some l →
  N.to_nat (size_ v) = length l ∧
  items_ v = l ++ drop (N.to_nat (size_ v)) (items_ v).
Proof.
  intros Hwf Hl. rewrite (live_wf v Hwf) in Hl. injection Hl as <-.
  destruct Hwf as (Hsz & Hlen & Hcap).
  split; [rewrite length_take; lia | by rewrite take_drop].
Qed.

Lemma PopBack_last v l x :
  wf v → live v = Some (l ++ [x]) →
  PopBack v = Ok (with_size v (size_ v - 1)) ∧
  live (with_size v (size_ v - 1)) = Some l ∧
  wf (with_size v (size_ v - 1)).
Proof.
  intros Hwf Hl. destruct (live_block v _ Hwf Hl) as (Hn & Hitems).
  destruct Hwf as (Hsz & Hlen & Hcap).
  rewrite length_app in Hn. simpl in Hn.
  unfold PopBack, IsEmpty.
  replace (size_ v =? 0) with false by (symmetry; apply N.eqb_neq; lia).
  rewrite size_decr_pos by lia. split; [done|]. split.
  - unfold with_size. rewrite Hitems, <- app_assoc.
    apply live_prefix. lia.
  - unfold wf, with_size; simpl. lia.
Qed.

Lemma before_store_capacity v :
  capacity_ v ≤ capacity_ (before_store v).
Proof.
  unfold before_store. destruct (size_ v =? capacity_ v); simpl; [|lia].
  pose proof (growth_policy_gt (capacity_ v)). lia.
Qed.

Lemma Erase_live v P x Q :
  wf v → live v = Some (P ++ x :: Q) →
  ∃ v', Erase v (Z.of_nat (length P)) = Ok (Z.of_nat (length P), v') ∧
        live v' = Some (P ++ Q) ∧ size_ v' = size_ v - 1 ∧
        capacity_ v' = capacity_ v ∧ wf v'.
Proof.
  intros Hwf Hl. destruct (live_block v _ Hwf Hl) as (Hn & Hitems).
  rewrite length_app in Hn. simpl in Hn.
  rewrite <- app_assoc in Hitems. simpl in Hitems.
  set (R := drop (N.to_nat (size_ v)) (items_ v)) in *.
  destruct (Erase_spec v P x Q R) as (g & Herase); [done | done | lia |].
  eexists. split; [exact Herase|].
  destruct Hwf as (Hsz & Hlen & Hcap).
  split; [rewrite app_assoc; apply live_prefix; rewrite length_app; lia|].
  split; [done|]. split; [done|].
  unfold wf; simpl. rewrite Hitems in Hlen.
  rewrite !length_app in *. simpl in *. rewrite !length_app in *.
  simpl in *. lia.
Qed.

(** What [Insert] builds, whichever overload is called. *)
Lemma Insert_live v P Q x :
  wf v → (size_ v = capacity_ v → capacity_ v * 2 < SIZE_MODULUS) →
  live v = Some (P ++ Q) →
  ∃ v', (∀ mv, Insert_with mv v (Z.of_nat (length P)) x
               = Ok (Z.of_nat (length P), v')) ∧
        live v' = Some (P ++ x :: Q) ∧ size_ v' = size_ v + 1 ∧
        capacity_ v' = capacity_ (before_store v) ∧ wf v'.
Proof.
  intros Hwf Hnw Hl. destruct (live_block v _ Hwf Hl) as (Hn & Hitems).
  rewrite length_app in Hn. rewrite <- app_assoc in Hitems.
  pose proof Hwf as (Hsz & Hlen & Hcap).
  unfold before_store.
  destruct (N.eqb_spec (size_ v) (capacity_ v)) as [Hfull|Hroom].
  - rewrite drop_ge, app_nil_r in Hitems by lia.
    pose proof (growth_policy_gt (capacity_ v)) as Hgt.
    pose proof (growth_policy_bound (capacity_ v) (Hnw Hfull)) as Hbd.
    eexists. split; [intros mv; apply (Insert_full mv v P Q x); auto|].
    split.
    { replace (P ++ x :: Q ++ replicate _ default_value)
        with ((P ++ x :: Q) ++ replicate
                (N.to_nat (growth_policy (capacity_ v) - size_ v - 1))
                (default_value (T:=T)))
        by (by rewrite <- app_assoc).
      apply live_prefix. rewrite length_app; simpl; lia. }
    split; [done|]. split; [done|].
    unfold wf; simpl.
    rewrite !length_app; simpl. rewrite length_app, length_replicate. lia.
  - destruct (drop (N.to_nat (size_ v)) (items_ v)) as [|y R] eqn:Hdrop.
    { apply (f_equal length) in Hdrop. rewrite length_drop in Hdrop.
      simpl in Hdrop. lia. }
    eexists. split; [intros mv; apply (Insert_room mv v P Q y R x); done || lia|].
    split.
    { replace (P ++ x :: Q ++ R) with ((P ++ x :: Q) ++ R)
        by (by rewrite <- app_assoc).
      apply live_prefix. rewrite length_app; simpl; lia. }
    split; [done|]. split; [done|].
    unfold wf; simpl. rewrite Hitems in Hlen.
    rewrite !length_app in *. simpl in *. rewrite !length_app in *.
    simpl in *. lia.
Qed.

Lemma At_inv v (i : N) y w :
  At v i = Ok (y, w) → i < size_ v ∧ items_ v !! N.to_nat i = Some y.
Proof.
  unfold At. destruct (N.leb_spec (size_ v) i) as [|Hlt]; [done|].
  unfold ArrayPtr.get. destruct (items_ v !! N.to_nat i); simpl; [|done].
  by intros [= -> _].
Qed.

End LiveElements.

(** X4.  [PopBack] on an empty container, whatever its capacity and
    block, fails its assertion.  On a container whose live elements are
    [l] followed by [x] it leaves exactly [l]: the size drops by one
    while the capacity and the block stay as they are. *)
Theorem PopBack_removes_last {T} `{Element T}
    (v : SimpleVector T) (l : list T) (x : T) :
  wf v → live v = Some (l ++ [x]) →
  (∀ w : SimpleVector T, GetSize w = 0 → PopBack w = AssertFail) ∧
  ∃ v', PopBack v = Ok v' ∧ live v' = Some l ∧
        GetSize v' = GetSize v - 1 ∧ GetCapacity v' = GetCapacity v ∧
        items_ v' = items_ v ∧ wf v'.
Proof.
  intros Hwf Hl. split.
  - intros w Hw. unfold PopBack, IsEmpty. unfold GetSize in Hw.
    by rewrite Hw.
  - destruct (PopBack_last v l x Hwf Hl) as (Hpop & Hlive & Hwf').
    eexists. split; [exact Hpop|]. done.
Qed.

Lemma PopBack_removes_last_witness :
  wf three_of_four ∧ live three_of_four = Some ([5; 7] ++ [9])%Z ∧
  (∀ w : SimpleVector Z, GetSize w = 0 → PopBack w = AssertFail) ∧
  ∃ v', PopBack three_of_four = Ok v' ∧ live v' = Some [5; 7]%Z ∧
        GetSize v' = GetSize three_of_four - 1 ∧
        GetCapacity v' = GetCapacity three_of_four ∧
        items_ v' = items_ three_of_four ∧ wf v'.
Proof.
  split; [exact wf_three_of_four|]. split; [reflexivity|].
  apply (PopBack_removes_last three_of_four [5; 7]%Z 9%Z);
    [exact wf_three_of_four | reflexivity].
Defined.

(** X5.  [PushBack] (either overload) followed by [PopBack] gives back
    the live elements and the size the container had; the capacity
    stays where [PushBack] put it and is never below the original
    one. *)
Theorem PushBack_then_PopBack {T} `{Element T} (v : SimpleVector T) (x : T) :
  wf v → capacity_ v < 2 ^ 63 →
  ∃ v1 v2, PushBack v x = Ok v1 ∧ PushBack_move v x = Ok v1 ∧
           PopBack v1 = Ok v2 ∧
           live v2 = live v ∧ GetSize v2 = GetSize v ∧
           GetCapacity v2 = GetCapacity v1 ∧
           GetCapacity v ≤ GetCapacity v2.
Proof.
  intros Hwf Hcap.
  assert (Hnw : size_ v = capacity_ v → capacity_ v * 2 < SIZE_MODULUS).
  { intros _. unfold SIZE_MODULUS. lia. }
  pose proof (live_wf v Hwf) as Hl.
  pose proof (after_store_live v x _ Hwf Hnw Hl) as Hl1.
  pose proof (after_store_wf v x Hwf Hnw) as Hwf1.
  destruct (PopBack_last _ _ _ Hwf1 Hl1) as (Hpop & Hlive & _).
  exists (after_store v x), (with_size (after_store v x) (size_ v + 1 - 1)).
  split; [by apply PushBack_spec|].
  split; [by apply PushBack_move_spec|].
  split; [exact Hpop|]. split; [by rewrite Hl|].
  split; [unfold GetSize; simpl; lia|]. split; [done|].
  apply before_store_capacity.
Qed.

Lemma PushBack_then_PopBack_witness :
  wf three_of_four ∧ capacity_ three_of_four < 2 ^ 63 ∧
  ∃ v1 v2, PushBack three_of_four 11%Z = Ok v1 ∧
           PushBack_move three_of_four 11%Z = Ok v1 ∧
           PopBack v1 = Ok v2 ∧
           live v2 = live three_of_four ∧
           GetSize v2 = GetSize three_of_four ∧
           GetCapacity v2 = GetCapacity v1 ∧
           GetCapacity three_of_four ≤ GetCapacity v2.
Proof.
  split; [exact wf_three_of_four|]. split; [by vm_compute|].
  apply (PushBack_then_PopBack three_of_four 11%Z);
    [exact wf_three_of_four | by vm_compute].
Defined.

(** X6.  After [PushBack(x)] the checked access [At(old size)] returns
    [x], and every index that [At] could read before still reads the
    same element. *)
Theorem PushBack_then_At {T} `{Element T} (v : SimpleVector T) (x : T) :
  wf v → capacity_ v < 2 ^ 63 →
  ∃ v', PushBack v x = Ok v' ∧ PushBack_move v x = Ok v' ∧
        At v' (GetSize v) = Ok (x, v') ∧
        ∀ i y, At v i = Ok (y, v) → At v' i = Ok (y, v').
Proof.
  intros Hwf Hcap.
  assert (Hnw : size_ v = capacity_ v → capacity_ v * 2 < SIZE_MODULUS).
  { intros _. unfold SIZE_MODULUS. lia. }
  destruct (before_store_wf v Hwf Hnw) as (Hwf1 & Hsz1 & Hroom & Hlive).
  rewrite (live_wf _ Hwf1), (live_wf _ Hwf), Hsz1 in Hlive.
  injection Hlive as Hkeep.
  destruct Hwf1 as (_ & Hlen1 & _).
  exists (after_store v x).
  split; [by apply PushBack_spec|].
  split; [by apply PushBack_move_spec|]. split.
  - apply (At_in_range (after_store v x) (size_ v) x); simpl; [lia|].
    apply list_lookup_insert_eq. lia.
  - intros i y Hat. apply At_inv in Hat as (Hi & Hy).
    apply (At_in_range (after_store v x) i y); simpl; [lia|].
    rewrite list_lookup_insert_ne by lia.
    rewrite <- (lookup_take_lt _ (N.to_nat (size_ v))) by lia.
    rewrite Hkeep. by rewrite lookup_take_lt by lia.
Qed.

Lemma PushBack_then_At_witness :
  wf three_of_four ∧ capacity_ three_of_four < 2 ^ 63 ∧
  ∃ v', PushBack three_of_four 11%Z = Ok v' ∧
        PushBack_move three_of_four 11%Z = Ok v' ∧
        At v' (GetSize three_of_four) = Ok (11%Z, v') ∧
        ∀ i y, At three_of_four i = Ok (y, three_of_four) →
               At v' i = Ok (y, v').
Proof.
  split; [exact wf_three_of_four|]. split; [by vm_compute|].
  apply (PushBack_then_At three_of_four 11%Z);
    [exact wf_three_of_four | by vm_compute].
Defined.



(** X8.  [Insert] at the position after the first [length P] of the live
    elements [P ++ Q] leaves the live elements [P ++ x :: Q] and returns
    that position.  Both overloads reach the same state: the size grows
    by one, and the capacity follows the growth policy when the
    container was full and stays otherwise. *)
Theorem Insert_places_value {T} `{Element T}
    (v : SimpleVector T) (P Q : list T) (x : T) :
  wf v → capacity_ v < 2 ^ 63 → live v = Some (P ++ Q) →
  ∃ v', Insert v (Z.of_nat (length P)) x = Ok (Z.of_nat (length P), v') ∧
        Insert_move v (Z.of_nat (length P)) x
        = Ok (Z.of_nat (length P), v') ∧
        live v' = Some (P ++ x :: Q) ∧ GetSize v' = GetSize v + 1 ∧
        GetCapacity v'
        = (if GetSize v =? GetCapacity v
           then growth_policy (GetCapacity v) else GetCapacity v) ∧
        wf v'.
Proof.
  intros Hwf Hcap Hl.
  assert (Hnw : size_ v = capacity_ v → capacity_ v * 2 < SIZE_MODULUS).
  { intros _. unfold SIZE_MODULUS. lia. }
  destruct (Insert_live v P Q x Hwf Hnw Hl)
    as (v' & Hins & Hlive & Hsz & Hc & Hwf').
  exists v'. split; [apply (Hins false)|]. split; [apply (Hins true)|].
  split; [done|]. split; [done|]. split; [|done].
  unfold GetCapacity, GetSize. rewrite Hc. unfold before_store.
  by destruct (size_ v =? capacity_ v).
Qed.

Lemma Insert_places_value_witness :
  wf three_of_four ∧ capacity_ three_of_four < 2 ^ 63 ∧
  live three_of_four = Some ([5] ++ [7; 9])%Z ∧
  ∃ v', Insert three_of_four (Z.of_nat (length [5%Z])) 6%Z
        = Ok (Z.of_nat (length [5%Z]), v') ∧
        Insert_move three_of_four (Z.of_nat (length [5%Z])) 6%Z
        = Ok (Z.of_nat (length [5%Z]), v') ∧
        live v' = Some ([5] ++ 6 :: [7; 9])%Z ∧
        GetSize v' = GetSize three_of_four + 1 ∧
        GetCapacity v'
        = (if GetSize three_of_four =? GetCapacity three_of_four
           then growth_policy (GetCapacity three_of_four)
           else GetCapacity three_of_four) ∧
        wf v'.
Proof.
  split; [exact wf_three_of_four|]. split; [by vm_compute|].
  split; [reflexivity|].
  apply (Insert_places_value three_of_four [5%Z] [7; 9]%Z 6%Z);
    [exact wf_three_of_four | by vm_compute | reflexivity].
Defined.

(** X9.  [Insert] at a position followed by [Erase] at the position it
    returned gives back the live elements and the size the container
    had. *)
Theorem Insert_then_Erase {T} `{Element T}
    (v : SimpleVector T) (P Q : list T) (x : T) :
  wf v → capacity_ v < 2 ^ 63 → live v = Some (P ++ Q) →
  ∃ pos v1 v2, Insert v (Z.of_nat (length P)) x = Ok (pos, v1) ∧
               Insert_move v (Z.of_nat (length P)) x = Ok (pos, v1) ∧
               Erase v1 pos = Ok (pos, v2) ∧
               live v2 = live v ∧ GetSize v2 = GetSize v.
Proof.
  intros Hwf Hcap Hl.
  assert (Hnw : size_ v = capacity_ v → capacity_ v * 2 < SIZE_MODULUS).
  { intros _. unfold SIZE_MODULUS. lia. }
  destruct (Insert_live v P Q x Hwf Hnw Hl)
    as (v1 & Hins & Hl1 & Hsz1 & _ & Hwf1).
  destruct (Erase_live v1 P x Q Hwf1 Hl1)
    as (v2 & Herase & Hl2 & Hsz2 & _ & _).
  exists (Z.of_nat (length P)), v1, v2.
  split; [apply (Hins false)|]. split; [apply (Hins true)|].
  split; [done|]. split; [by rewrite Hl, Hl2|].
  unfold GetSize. lia.
Qed.

Lemma Insert_then_Erase_witness :
  wf three_of_four ∧ capacity_ three_of_four < 2 ^ 63 ∧
  live three_of_four = Some ([5] ++ [7; 9])%Z ∧
  ∃ pos v1 v2,
    Insert three_of_four (Z.of_nat (length [5%Z])) 6%Z = Ok (pos, v1) ∧
    Insert_move three_of_four (Z.of_nat (length [5%Z])) 6%Z = Ok (pos, v1) ∧
    Erase v1 pos = Ok (pos, v2) ∧
    live v2 = live three_of_four ∧ GetSize v2 = GetSize three_of_four.
Proof.
  split; [exact wf_three_of_four|]. split; [by vm_compute|].
  split; [reflexivity|].
  apply (Insert_then_Erase three_of_four [5%Z] [7; 9]%Z 6%Z);
    [exact wf_three_of_four | by vm_compute | reflexivity].
Defined.

(** X10.  [Erase] at the last live position is [PopBack]: both leave the
    same container, with the block untouched. *)
Theorem Erase_last_is_PopBack {T} `{Element T} (v : SimpleVector T) :
  wf v → 0 < size_ v →
  ∃ v', PopBack v = Ok v' ∧
        Erase v (Z.of_N (size_ v - 1)) = Ok (Z.of_N (size_ v - 1), v') ∧
        items_ v' = items_ v.
Proof.
  intros (Hsz & Hlen & Hcap) Hpos.
  exists (with_size v (size_decr (size_ v))). split; [|split; [|done]].
  - unfold PopBack, IsEmpty.
    by replace (size_ v =? 0) with false by (symmetry; apply N.eqb_neq; lia).
  - unfold Erase.
    replace ((0 <=? Z.of_N (size_ v - 1))%Z
             && (Z.of_N (size_ v - 1) <? Z.of_N (size_ v))%Z) with true
      by (symmetry; apply andb_true_iff;
          split; [apply Z.leb_le | apply Z.ltb_lt]; lia).
    rewrite N2Z.id, wrap_small by lia.
    unfold for_range.
    replace (N.to_nat (size_ v - (size_ v - 1 + 1))) with 0%nat by lia.
    done.
Qed.

Lemma Erase_last_is_PopBack_witness :
  wf three_of_four ∧ 0 < size_ three_of_four ∧
  ∃ v', PopBack three_of_four = Ok v' ∧
        Erase three_of_four (Z.of_N (size_ three_of_four - 1))
        = Ok (Z.of_N (size_ three_of_four - 1), v') ∧
        items_ v' = items_ three_of_four.
Proof.
  split; [exact wf_three_of_four|]. split; [by vm_compute|].
  apply (Erase_last_is_PopBack three_of_four);
    [exact wf_three_of_four | by vm_compute].
Defined.

(** ** Capacity *)
Section Capacity.
Context {T : Type} `{Element T}.
Implicit Types (v : SimpleVector T) (x : T) (l : list T).

Lemma after_store_room v x :
  size_ v < capacity_ v → capacity_ (after_store v x) = capacity_ v.
Proof.
  intros Hroom. unfold after_store, before_store; simpl.
  by replace (size_ v =? capacity_ v) with false
    by (symmetry; apply N.eqb_neq; lia).
Qed.

(** Appends that fit the capacity leave it alone. *)
Lemma append_all_room (ops : list (bool * T)) : ∀ v l,
  wf v → size_ v + N.of_nat (length ops) ≤ capacity_ v → live v = Some l →
  ∃ v', append_all v ops = Ok v' ∧ wf v' ∧
        capacity_ v' = capacity_ v ∧
        size_ v' = size_ v + N.of_nat (length ops) ∧
        live v' = Some (l ++ ops.*2).
Proof.
  induction ops as [|op ops IH]; intros v l Hwf Hfit Hl.
  - exists v. simpl. rewrite app_nil_r.
    split; [done|]. split; [done|]. split; [done|]. split; [lia | done].
  - simpl in Hfit.
    assert (Hnw : size_ v = capacity_ v → capacity_ v * 2 < SIZE_MODULUS)
      by lia.
    simpl. rewrite append_spec by done. simpl.
    pose proof (after_store_room v op.2) as Hc.
    destruct (IH (after_store v op.2) (l ++ [op.2]))
      as (v' & Hrun & Hwf' & Hcap' & Hsz' & Hl').
    + by apply after_store_wf.
    + rewrite Hc by lia. simpl. lia.
    + by apply after_store_live.
    + exists v'. rewrite Hrun. rewrite <- app_assoc in Hl'.
      split; [done|]. split; [done|].
      split; [rewrite Hcap'; apply Hc; lia|].
      split; [simpl in Hsz'; lia | done].
Qed.

Lemma wf_reserved (n : N) :
  n < SIZE_MODULUS → wf (SimpleVector_reserved (T:=T) n).
Proof.
  intros Hn. unfold wf, SimpleVector_reserved, ArrayPtr.make; simpl.
  rewrite length_replicate. lia.
Qed.

Lemma wrap_bound (a : N) : wrap a < SIZE_MODULUS.
Proof. unfold wrap. apply N.mod_lt. done. Qed.

(** The first half of [Resize], with the capacity it settles on. *)
Lemma Resize_room_capacity v new_size :
  wf v →
  ∃ v1,
    (if capacity_ v <? new_size then
       temp_vec ← SimpleVector_sized
                    (N.max new_size (wrap (capacity_ v * 2)));
       '(_, temp') ← move_into (size_ v) (items_ v) temp_vec;
       Ok (mkVector (size_ v) (capacity_ temp') (items_ temp'))
     else Ok v) = Ok v1 ∧
    size_ v1 = size_ v ∧
    capacity_ v1 = (if capacity_ v <? new_size
                    then N.max new_size (wrap (capacity_ v * 2))
                    else capacity_ v) ∧
    N.of_nat (length (items_ v1)) = capacity_ v1 ∧
    take (N.to_nat (size_ v)) (items_ v1)
    = take (N.to_nat (size_ v)) (items_ v).
Proof.
  intros Hwf. pose proof Hwf as (Hsz & Hlen & Hcap).
  destruct (N.ltb_spec (capacity_ v) new_size) as [Hlt|Hge].
  - set (c := N.max new_size (wrap (capacity_ v * 2))).
    rewrite SimpleVector_sized_spec. simpl.
    destruct (move_into_fresh v c) as (src' & Hmv); [done | lia |].
    rewrite Hmv. simpl. eexists. split; [done|]. simpl.
    split; [done|]. split; [done|]. split.
    + rewrite length_app, length_take, length_replicate. lia.
    + rewrite take_app_length'; [done|]. rewrite length_take. lia.
  - exists v. repeat split; done || lia.
Qed.

Lemma Resize_any v new_size l :
  wf v → new_size < SIZE_MODULUS → live v = Some l →
  ∃ v', Resize v new_size = Ok v' ∧ wf v' ∧ size_ v' = new_size ∧
        capacity_ v' = (if capacity_ v <? new_size
                        then N.max new_size (wrap (capacity_ v * 2))
                        else capacity_ v) ∧
        live v' = Some (take (N.to_nat new_size)
                          (l ++ replicate (N.to_nat (new_size - size_ v))
                                  default_value)).
Proof.
  intros Hwf Hn Hl. rewrite (live_wf v Hwf) in Hl. injection Hl as <-.
  destruct (Resize_room_capacity v new_size Hwf)
    as (v1 & Hroom & Hsz1 & Hcap1 & Hlen1 & Hkeep).
  pose proof Hwf as (Hsz & Hlen & Hcap).
  assert (Hfit : new_size ≤ capacity_ v1 ∧ capacity_ v1 < SIZE_MODULUS).
  { rewrite Hcap1. pose proof (wrap_bound (capacity_ v * 2)).
    destruct (N.ltb_spec (capacity_ v) new_size); lia. }
  unfold Resize. rewrite Hroom. simpl. rewrite Hsz1.
  destruct (N.ltb_spec (size_ v) new_size) as [Hlt|Hge].
  - rewrite fill_range by lia. simpl. eexists. split; [done|]. simpl.
    split.
    { unfold wf; simpl.
      rewrite !length_app, length_take, length_replicate, length_drop. lia. }
    split; [done|]. split; [done|].
    unfold live; simpl.
    rewrite decide_True
      by (rewrite !length_app, length_take, length_replicate, length_drop;
          lia).
    f_equal. rewrite Hkeep, app_assoc.
    rewrite take_app_length'
      by (rewrite length_app, length_take, length_replicate; lia).
    symmetry. apply take_ge.
    rewrite length_app, length_take, length_replicate. lia.
  - simpl. eexists. split; [done|]. simpl.
    split; [unfold wf; simpl; lia|].
    split; [done|]. split; [done|].
    unfold live; simpl. rewrite decide_True by lia.
    f_equal. replace (N.to_nat (new_size - size_ v)) with 0%nat by lia.
    simpl. rewrite app_nil_r, take_take.
    replace (N.to_nat new_size)
      with (Nat.min (N.to_nat new_size) (N.to_nat (size_ v))) at 1 by lia.
    rewrite <- take_take. by rewrite Hkeep, take_take.
Qed.

End Capacity.


(** X11.  A container built from a reservation of [n] slots is empty
    with capacity [n], and any run of at most [n] appends (by copy or by
    move) fills it without changing the capacity. *)
Theorem reserved_appends_keep_capacity {T} `{Element T}
    (n : N) (ops : list (bool * T)) :
  n < 2 ^ 64 → N.of_nat (length ops) ≤ n →
  GetSize (SimpleVector_reserved (T:=T) n) = 0 ∧
  ∃ v, append_all (SimpleVector_reserved n) ops = Ok v ∧
       GetCapacity v = n ∧ GetSize v = N.of_nat (length ops) ∧
       live v = Some (ops.*2).
Proof.
  intros Hn Hfit. split; [done|].
  destruct (append_all_room ops (SimpleVector_reserved n) [])
    as (v & Hrun & _ & Hcap & Hsz & Hl).
  { by apply wf_reserved. } { simpl; lia. } { done. }
  exists v. done.
Qed.

Lemma reserved_appends_keep_capacity_witness :
  10 < 2 ^ 64 ∧ N.of_nat (length [(false, 5); (true, 7)]%Z) ≤ 10 ∧
  GetSize (SimpleVector_reserved (T:=Z) 10) = 0 ∧
  ∃ v, append_all (SimpleVector_reserved 10) [(false, 5); (true, 7)]%Z
       = Ok v ∧
       GetCapacity v = 10 ∧
       GetSize v = N.of_nat (length [(false, 5); (true, 7)]%Z) ∧
       live v = Some ([(false, 5); (true, 7)]%Z.*2).
Proof.
  split; [by vm_compute|]. split; [by vm_compute|].
  apply (reserved_appends_keep_capacity 10 [(false, 5); (true, 7)]%Z);
    by vm_compute.
Defined.

(** X12.  [Clear] empties the container and keeps its capacity: the
    following appends, up to that capacity, reuse the block and leave
    exactly the appended values as live elements. *)
Theorem Clear_keeps_capacity {T} `{Element T}
    (v : SimpleVector T) (ops : list (bool * T)) :
  wf v → N.of_nat (length ops) ≤ capacity_ v →
  GetSize (Clear v) = 0 ∧ IsEmpty (Clear v) = true ∧
  ∃ v', append_all (Clear v) ops = Ok v' ∧
        GetCapacity v' = GetCapacity v ∧
        GetSize v' = N.of_nat (length ops) ∧ live v' = Some (ops.*2).
Proof.
  intros Hwf Hfit. split; [done|]. split; [done|].
  destruct (append_all_room ops (Clear v) [])
    as (v' & Hrun & _ & Hcap & Hsz & Hl).
  { by apply wf_Clear. } { simpl; lia. }
  { apply (live_wf _ (wf_Clear v Hwf)). }
  exists v'. done.
Qed.

Lemma Clear_keeps_capacity_witness :
  wf three_of_four ∧
  N.of_nat (length [(false, 1); (true, 2)]%Z) ≤ capacity_ three_of_four ∧
  GetSize (Clear three_of_four) = 0 ∧ IsEmpty (Clear three_of_four) = true ∧
  ∃ v', append_all (Clear three_of_four) [(false, 1); (true, 2)]%Z = Ok v' ∧
        GetCapacity v' = GetCapacity three_of_four ∧
        GetSize v' = N.of_nat (length [(false, 1); (true, 2)]%Z) ∧
        live v' = Some ([(false, 1); (true, 2)]%Z.*2).
Proof.
  split; [exact wf_three_of_four|]. split; [by vm_compute|].
  apply (Clear_keeps_capacity three_of_four [(false, 1); (true, 2)]%Z);
    [exact wf_three_of_four | by vm_compute].
Defined.

(** X13.  After [Reserve(k)] beyond the capacity, appends that keep the
    size within [k] never change the capacity again; the live elements
    are the old ones followed by the appended values. *)
Theorem Reserve_then_appends {T} `{Element T}
    (v : SimpleVector T) (k : N) (ops : list (bool * T)) (l : list T) :
  wf v → capacity_ v < k → k < 2 ^ 64 →
  size_ v + N.of_nat (length ops) ≤ k → live v = Some l →
  ∃ v1 v2, Reserve v k = Ok v1 ∧ append_all v1 ops = Ok v2 ∧
           GetCapacity v1 = k ∧ GetCapacity v2 = k ∧
           GetSize v2 = GetSize v + N.of_nat (length ops) ∧
           live v2 = Some (l ++ ops.*2).
Proof.
  intros Hwf Hlt Hk Hfit Hl. pose proof Hwf as (Hsz & _).
  destruct (append_all_room ops (regrown v k) l)
    as (v2 & Hrun & _ & Hcap & Hsz2 & Hl2).
  { apply wf_regrown; done || lia. } { simpl; lia. }
  { by rewrite live_regrown by (done || lia). }
  exists (regrown v k), v2.
  split; [by apply Reserve_grow|]. done.
Qed.

Lemma Reserve_then_appends_witness :
  wf three_of_four ∧ capacity_ three_of_four < 6 ∧ 6 < 2 ^ 64 ∧
  size_ three_of_four + N.of_nat (length [(false, 1); (true, 2)]%Z) ≤ 6 ∧
  live three_of_four = Some [5; 7; 9]%Z ∧
  ∃ v1 v2, Reserve three_of_four 6 = Ok v1 ∧
           append_all v1 [(false, 1); (true, 2)]%Z = Ok v2 ∧
           GetCapacity v1 = 6 ∧ GetCapacity v2 = 6 ∧
           GetSize v2 = GetSize three_of_four
                        + N.of_nat (length [(false, 1); (true, 2)]%Z) ∧
           live v2 = Some ([5; 7; 9]%Z ++ [(false, 1); (true, 2)]%Z.*2).
Proof.
  split; [exact wf_three_of_four|]. split; [by vm_compute|].
  split; [by vm_compute|]. split; [by vm_compute|]. split; [reflexivity|].
  apply (Reserve_then_appends three_of_four 6
           [(false, 1); (true, 2)]%Z [5; 7; 9]%Z);
    [exact wf_three_of_four | by vm_compute | by vm_compute
     | by vm_compute | reflexivity].
Defined.



(** X15.  [Resize(n)] always succeeds and sets the size to [n].  The live
    elements become the first [n] of the old ones followed by default
    values, so shrinking keeps a prefix; the capacity stays when [n]
    fits it and becomes [max(n, capacity * 2)] (in [size_t] arithmetic)
    otherwise, and size, capacity and block keep agreeing. *)
Theorem Resize_sets_size {T} `{Element T}
    (v : SimpleVector T) (n : N) (l : list T) :
  wf v → n < 2 ^ 64 → live v = Some l →
  ∃ v', Resize v n = Ok v' ∧ GetSize v' = n ∧
        live v' = Some (take (N.to_nat n)
                          (l ++ replicate (N.to_nat (n - size_ v))
                                  default_value)) ∧
        GetCapacity v' = (if GetCapacity v <? n
                          then N.max n (wrap (GetCapacity v * 2))
                          else GetCapacity v) ∧
        (n ≤ size_ v → items_ v' = items_ v) ∧
        wf v'.
Proof.
  intros Hwf Hn Hl.
  destruct (Resize_any v n l Hwf Hn Hl)
    as (v' & Hres & Hwf' & Hsz & Hcap & Hlive).
  exists v'. split; [done|]. split; [done|]. split; [done|].
  split; [done|]. split; [|done].
  intros Hle. pose proof Hwf as (Hs & _ & _).
  revert Hres. unfold Resize.
  replace (capacity_ v <? n) with false by (symmetry; apply N.ltb_ge; lia).
  simpl.
  replace (size_ v <? n) with false by (symmetry; apply N.ltb_ge; lia).
  simpl. by intros [= <-].
Qed.

Lemma Resize_sets_size_witness :
  wf three_of_four ∧ 2 < 2 ^ 64 ∧ live three_of_four = Some [5; 7; 9]%Z ∧
  ∃ v', Resize three_of_four 2 = Ok v' ∧ GetSize v' = 2 ∧
        live v' = Some (take (N.to_nat 2)
                          ([5; 7; 9]%Z
                             ++ replicate (N.to_nat (2 - size_ three_of_four))
                                  default_value)) ∧
        GetCapacity v' = (if GetCapacity three_of_four <? 2
                          then N.max 2 (wrap (GetCapacity three_of_four * 2))
                          else GetCapacity three_of_four) ∧
        (2 ≤ size_ three_of_four → items_ v' = items_ three_of_four) ∧
        wf v'.
Proof.
  split; [exact wf_three_of_four|]. split; [by vm_compute|].
  split; [reflexivity|].
  apply (Resize_sets_size three_of_four 2 [5; 7; 9]%Z);
    [exact wf_three_of_four | by vm_compute | reflexivity].
Defined.

(** X16.  Growth keeps the container consistent and never gives capacity
    back: after [PushBack] (either overload) and after [Reserve] the
    size is within the capacity, the block has exactly [capacity] slots,
    and the capacity is at least what it was; [Reserve(k)] ends with
    capacity [max(capacity, k)]. *)
Theorem growth_keeps_invariant {T} `{Element T}
    (v : SimpleVector T) (x : T) (k : N) :
  wf v → capacity_ v < 2 ^ 63 → k < 2 ^ 64 →
  (∃ v', PushBack v x = Ok v' ∧ PushBack_move v x = Ok v' ∧ wf v' ∧
         GetCapacity v ≤ GetCapacity v') ∧
  (∃ v', Reserve v k = Ok v' ∧ wf v' ∧
         GetCapacity v' = N.max (GetCapacity v) k).
Proof.
  intros Hwf Hcap Hk.
  assert (Hnw : size_ v = capacity_ v → capacity_ v * 2 < SIZE_MODULUS).
  { intros _. unfold SIZE_MODULUS. lia. }
  split.
  - exists (after_store v x).
    split; [by apply PushBack_spec|].
    split; [by apply PushBack_move_spec|].
    split; [by apply after_store_wf|].
    apply before_store_capacity.
  - pose proof Hwf as (Hsz & _).
    destruct (N.lt_ge_cases (capacity_ v) k) as [Hlt|Hge].
    + exists (regrown v k). split; [by apply Reserve_grow|].
      split; [apply wf_regrown; done || lia|].
      unfold GetCapacity; simpl. lia.
    + exists v. split; [by apply Reserve_keep|]. split; [done|].
      unfold GetCapacity. lia.
Qed.

Lemma growth_keeps_invariant_witness :
  wf three_of_four ∧ capacity_ three_of_four < 2 ^ 63 ∧ 6 < 2 ^ 64 ∧
  (∃ v', PushBack three_of_four 11%Z = Ok v' ∧
         PushBack_move three_of_four 11%Z = Ok v' ∧ wf v' ∧
         GetCapacity three_of_four ≤ GetCapacity v') ∧
  (∃ v', Reserve three_of_four 6 = Ok v' ∧ wf v' ∧
         GetCapacity v' = N.max (GetCapacity three_of_four) 6).
Proof.
  split; [exact wf_three_of_four|]. split; [by vm_compute|].
  split; [by vm_compute|].
  apply (growth_keeps_invariant three_of_four 11%Z 6);
    [exact wf_three_of_four | by vm_compute | by vm_compute].
Defined.

(** ** Assignment and comparison between two objects *)
Section TwoObjects.
Context {T : Type} `{Element T} `{Comparable T}.
Implicit Types (v a b c : SimpleVector T) (l : list T)
  (h : gmap N (SimpleVector T)).

Lemma equal_elements_Forall2 l1 : ∀ l2,
  equal_elements l1 l2 = true ↔
  Forall2 (λ x y, elt_eqb x y = true) l1 l2.
Proof.
  induction l1 as [|x l1 IH]; intros [|y l2]; simpl.
  - split; [constructor | done].
  - split; [done | inversion 1].
  - split; [done | inversion 1].
  - rewrite andb_true_iff, IH. split.
    + intros [? ?]. by constructor.
    + inversion 1; subst. done.
Qed.

Lemma std_equal_Forall2 l1 l2 :
  std_equal l1 l2 = true ↔ Forall2 (λ x y, elt_eqb x y = true) l1 l2.
Proof.
  unfold std_equal. destruct (decide (length l1 = length l2)) as [Heq|Hne].
  - apply equal_elements_Forall2.
  - split; [done|]. intros HF. by apply Forall2_length in HF.
Qed.

(** [operator==] on two distinct objects whose ranges can be read. *)
Lemma op_eq_distinct h (pa pb : N) a b la lb :
  h !! pa = Some a → h !! pb = Some b → pa ≠ pb →
  live a = Some la → live b = Some lb →
  N.to_nat (size_ a) = length la → N.to_nat (size_ b) = length lb →
  op_eq h pa pb = Ok (std_equal la lb).
Proof.
  intros Ha Hb Hne Hla Hlb Hsa Hsb. unfold op_eq, GetSize.
  rewrite Ha, Hb. simpl. rewrite decide_False by done.
  destruct (N.eqb_spec (size_ a) (size_ b)) as [Heq|Hneq].
  - by rewrite Hla, Hlb.
  - unfold std_equal. rewrite decide_False by lia. done.
Qed.

Lemma live_length v l :
  live v = Some l → N.to_nat (size_ v) = length l.
Proof.
  unfold live. destruct (decide _) as [Hle|]; [|done].
  intros [= <-]. rewrite length_take. lia.
Qed.

(** The copy of a well-formed container, as the range functions see
    it. *)
Lemma SimpleVector_copy_live v :
  wf v →
  ∃ c, SimpleVector_copy v = Ok c ∧ size_ c = size_ v ∧ live c = live v.
Proof.
  intros Hwf. rewrite (SimpleVector_copy_spec v Hwf).
  eexists. split; [done|]. split; [done|].
  rewrite (live_wf v Hwf). destruct Hwf as (Hsz & Hlen & _).
  unfold live; simpl.
  rewrite decide_True by (rewrite length_take; lia).
  by rewrite take_take, Nat.min_id.
Qed.

Lemma equal_elements_refl l :
  (∀ x, elt_eqb x x = true) → equal_elements l l = true.
Proof. intros Hrefl. induction l; simpl; [done|]. by rewrite Hrefl. Qed.

(** Element orders that make [operator<] a strict weak order. *)
Section StrictWeak.
Hypothesis ltb_asym : ∀ x y : T, elt_ltb x y = true → elt_ltb y x = false.
Hypothesis ltb_trans : ∀ x y z : T,
  elt_ltb x y = true → elt_ltb y z = true → elt_ltb x z = true.
Hypothesis ltb_incomparable : ∀ x y z : T,
  elt_ltb x y = false → elt_ltb y x = false →
  elt_ltb y z = false → elt_ltb z y = false → elt_ltb x z = false.

Lemma ltb_then_equiv (x y z : T) :
  elt_ltb x y = true → elt_ltb y z = false → elt_ltb z y = false →
  elt_ltb x z = true.
Proof.
  intros Hxy Hyz Hzy. destruct (elt_ltb x z) eqn:Hxz; [done|].
  destruct (elt_ltb z x) eqn:Hzx.
  - rewrite (ltb_trans z x y Hzx Hxy) in Hzy. done.
  - rewrite (ltb_incomparable x z y Hxz Hzx Hzy Hyz) in Hxy. done.
Qed.

Lemma equiv_then_ltb (x y z : T) :
  elt_ltb x y = false → elt_ltb y x = false → elt_ltb y z = true →
  elt_ltb x z = true.
Proof.
  intros Hxy Hyx Hyz. destruct (elt_ltb x z) eqn:Hxz; [done|].
  destruct (elt_ltb z x) eqn:Hzx.
  - rewrite (ltb_trans y z x Hyz Hzx) in Hyx. done.
  - rewrite (ltb_incomparable y x z Hyx Hxy Hxz Hzx) in Hyz. done.
Qed.

Lemma lexicographical_compare_asym l1 : ∀ l2,
  lexicographical_compare l1 l2 = true →
  lexicographical_compare l2 l1 = false.
Proof.
  induction l1 as [|x l1 IH]; intros [|y l2]; simpl; try done.
  destruct (elt_ltb x y) eqn:Hxy.
  - intros _. by rewrite (ltb_asym x y Hxy).
  - destruct (elt_ltb y x) eqn:Hyx; [done|]. apply IH.
Qed.

Lemma lex_lt_trans l1 l2 : lex_lt l1 l2 → ∀ l3, lex_lt l2 l3 → lex_lt l1 l3.
Proof.
  induction 1 as [y l2|x y l1 l2 Hxy|x y l1 l2 Hxy Hyx Hlt IH];
    intros l3 H23; inversion H23; subst.
  - constructor.
  - constructor.
  - apply lex_lt_head. by eapply ltb_trans.
  - apply lex_lt_head. by eapply ltb_then_equiv.
  - apply lex_lt_head. by eapply equiv_then_ltb.
  - apply lex_lt_tail; [by eapply ltb_incomparable | | by apply IH].
    by eapply (ltb_incomparable _ y).
Qed.

End StrictWeak.
End TwoObjects.

(** X17.  Copy assignment between two distinct objects gives the target
    the size and the live elements of the source, and changes no other
    object of the store: the source is left as it was. *)
Theorem assign_copy_takes_elements {T} `{Element T}
    (h : gmap N (SimpleVector T)) (this rhs : N) (t r : SimpleVector T) :
  this ≠ rhs → h !! this = Some t → h !! rhs = Some r → wf r →
  ∃ c, assign_copy h this rhs = Ok (<[this := c]> h) ∧
       GetSize c = GetSize r ∧ live c = live r ∧
       (<[this := c]> h) !! rhs = Some r.
Proof.
  intros Hne Ht Hr Hwf.
  destruct (SimpleVector_copy_live r Hwf) as (c & Hcopy & Hsz & Hlive).
  exists c. split.
  - unfold assign_copy. rewrite decide_False by done.
    rewrite Ht, Hr. simpl. by rewrite Hcopy.
  - split; [done|]. split; [done|]. by rewrite lookup_insert_ne.
Qed.

Lemma assign_copy_takes_elements_witness :
  (1 : N) ≠ 2 ∧
  ({[1 := SimpleVector_default; 2 := three_of_four]}
     : gmap N (SimpleVector Z)) !! 1 = Some SimpleVector_default ∧
  ({[1 := SimpleVector_default; 2 := three_of_four]}
     : gmap N (SimpleVector Z)) !! 2 = Some three_of_four ∧
  wf three_of_four ∧
  ∃ c, assign_copy {[1 := SimpleVector_default; 2 := three_of_four]} 1 2
       = Ok (<[1 := c]> {[1 := SimpleVector_default; 2 := three_of_four]}) ∧
       GetSize c = GetSize three_of_four ∧ live c = live three_of_four ∧
       (<[1 := c]> ({[1 := SimpleVector_default; 2 := three_of_four]}
                      : gmap N (SimpleVector Z))) !! 2 = Some three_of_four.
Proof.
  split; [done|]. split; [reflexivity|]. split; [reflexivity|].
  split; [exact wf_three_of_four|].
  apply (assign_copy_takes_elements
           {[1 := SimpleVector_default; 2 := three_of_four]} 1 2
           SimpleVector_default three_of_four);
    [done | reflexivity | reflexivity | exact wf_three_of_four].
Defined.

(** X18.  A copy compares equal to its original: after copy assignment
    between two distinct objects, [==] holds in both directions and
    [!=] does not, for every element type whose [==] is reflexive. *)
Theorem copy_equals_original {T} `{Element T} `{Comparable T}
    (h : gmap N (SimpleVector T)) (this rhs : N) (t r : SimpleVector T) :
  (∀ x : T, elt_eqb x x = true) →
  this ≠ rhs → h !! this = Some t → h !! rhs = Some r → wf r →
  ∃ h', assign_copy h this rhs = Ok h' ∧
        op_eq h' this rhs = Ok true ∧ op_eq h' rhs this = Ok true ∧
        op_ne h' this rhs = Ok false.
Proof.
  intros Hrefl Hne Ht Hr Hwf.
  destruct (SimpleVector_copy_live r Hwf) as (c & Hcopy & Hsz & Hlive).
  pose proof (live_wf r Hwf) as Hlr. rewrite Hlr in Hlive.
  pose proof (live_length _ _ Hlr) as Hnr.
  pose proof (live_length _ _ Hlive) as Hnc.
  exists (<[this := c]> h).
  assert (Hc : (<[this := c]> h) !! this = Some c)
    by apply lookup_insert_eq.
  assert (Hr' : (<[this := c]> h) !! rhs = Some r)
    by by rewrite lookup_insert_ne.
  assert (Heq : ∀ l : list T, std_equal l l = true).
  { intros l. unfold std_equal. rewrite decide_True by done.
    by apply equal_elements_refl. }
  assert (H1 : op_eq (<[this := c]> h) this rhs = Ok true).
  { rewrite (op_eq_distinct _ this rhs c r _ _ Hc Hr' Hne Hlive Hlr Hnc Hnr).
    by rewrite Heq. }
  split.
  - unfold assign_copy. rewrite decide_False by done.
    rewrite Ht, Hr. simpl. by rewrite Hcopy.
  - split; [done|]. split.
    + rewrite (op_eq_distinct _ rhs this r c _ _ Hr' Hc) by done.
      by rewrite Heq.
    + unfold op_ne. by rewrite H1.
Qed.

Lemma copy_equals_original_witness :
  (∀ x : Z, elt_eqb x x = true) ∧ (1 : N) ≠ 2 ∧
  ({[1 := SimpleVector_default; 2 := three_of_four]}
     : gmap N (SimpleVector Z)) !! 1 = Some SimpleVector_default ∧
  ({[1 := SimpleVector_default; 2 := three_of_four]}
     : gmap N (SimpleVector Z)) !! 2 = Some three_of_four ∧
  wf three_of_four ∧
  ∃ h', assign_copy {[1 := SimpleVector_default; 2 := three_of_four]} 1 2
        = Ok h' ∧
        op_eq h' 1 2 = Ok true ∧ op_eq h' 2 1 = Ok true ∧
        op_ne h' 1 2 = Ok false.
Proof.
  split; [intros x; apply Z.eqb_refl|]. split; [done|].
  split; [reflexivity|]. split; [reflexivity|].
  split; [exact wf_three_of_four|].
  apply (copy_equals_original
           {[1 := SimpleVector_default; 2 := three_of_four]} 1 2
           SimpleVector_default three_of_four);
    [intros x; apply Z.eqb_refl | done | reflexivity | reflexivity
     | exact wf_three_of_four].
Defined.

(** X19.  Move assignment between two distinct objects hands the source's
    size, capacity and block to the target unchanged and leaves the
    source empty, with size 0, capacity 0 and no block; no other object
    of the store changes. *)
Theorem assign_move_transfers {T} `{Element T}
    (h : gmap N (SimpleVector T)) (this rhs : N) (t r : SimpleVector T) :
  this ≠ rhs → h !! this = Some t → h !! rhs = Some r →
  ∃ h', assign_move h this rhs = Ok h' ∧
        h' !! this = Some r ∧ h' !! rhs = Some SimpleVector_default ∧
        ∀ a, a ≠ this → a ≠ rhs → h' !! a = h !! a.
Proof.
  intros Hne Ht Hr.
  exists (<[this := r]> (<[rhs := SimpleVector_default]> h)). split.
  - unfold assign_move. rewrite decide_False by done.
    rewrite Ht, Hr. simpl. by destruct r.
  - split; [apply lookup_insert_eq|]. split.
    + rewrite lookup_insert_ne by done. apply lookup_insert_eq.
    + intros a Ha1 Ha2. by rewrite !lookup_insert_ne.
Qed.

Lemma assign_move_transfers_witness :
  (1 : N) ≠ 2 ∧
  ({[1 := SimpleVector_default; 2 := three_of_four]}
     : gmap N (SimpleVector Z)) !! 1 = Some SimpleVector_default ∧
  ({[1 := SimpleVector_default; 2 := three_of_four]}
     : gmap N (SimpleVector Z)) !! 2 = Some three_of_four ∧
  ∃ h', assign_move {[1 := SimpleVector_default; 2 := three_of_four]} 1 2
        = Ok h' ∧
        h' !! 1 = Some three_of_four ∧ h' !! 2 = Some SimpleVector_default ∧
        ∀ a, a ≠ 1 → a ≠ 2 →
             h' !! a = ({[1 := SimpleVector_default; 2 := three_of_four]}
                          : gmap N (SimpleVector Z)) !! a.
Proof.
  split; [done|]. split; [reflexivity|]. split; [reflexivity|].
  apply (assign_move_transfers
           {[1 := SimpleVector_default; 2 := three_of_four]} 1 2
           SimpleVector_default three_of_four);
    [done | reflexivity | reflexivity].
Defined.

(** X20.  [operator==] answers true for an object compared with itself
    without looking at the elements; for two distinct objects it answers
    true exactly when the live elements have the same length and are
    pairwise equal under the element [==].  [operator!=] is its
    negation. *)
Theorem op_eq_elementwise {T} `{Element T} `{Comparable T}
    (h : gmap N (SimpleVector T)) (pa pb : N) (a b : SimpleVector T) :
  h !! pa = Some a → h !! pb = Some b → wf a → wf b →
  ∃ e la lb, live a = Some la ∧ live b = Some lb ∧
             op_eq h pa pb = Ok e ∧ op_ne h pa pb = Ok (negb e) ∧
             (pa = pb → e = true) ∧
             (pa ≠ pb →
              (e = true ↔ Forall2 (λ x y, elt_eqb x y = true) la lb)).
Proof.
  intros Ha Hb Hwfa Hwfb.
  pose proof (live_wf a Hwfa) as Hla. pose proof (live_wf b Hwfb) as Hlb.
  destruct (decide (pa = pb)) as [->|Hne].
  - exists true. do 2 eexists. split; [exact Hla|]. split; [exact Hlb|].
    assert (Heq : op_eq h pb pb = Ok true).
    { unfold op_eq. rewrite Hb. simpl. by rewrite decide_True. }
    split; [done|]. split; [unfold op_ne; by rewrite Heq|]. done.
  - eexists. do 2 eexists. split; [exact Hla|]. split; [exact Hlb|].
    pose proof (op_eq_distinct h pa pb a b _ _ Ha Hb Hne Hla Hlb
                  (live_length _ _ Hla) (live_length _ _ Hlb)) as Heq.
    split; [exact Heq|]. split; [unfold op_ne; by rewrite Heq|].
    split; [done|]. intros _. apply std_equal_Forall2.
Qed.

Lemma op_eq_elementwise_witness :
  ({[1 := SimpleVector_default; 2 := three_of_four]}
     : gmap N (SimpleVector Z)) !! 1 = Some SimpleVector_default ∧
  ({[1 := SimpleVector_default; 2 := three_of_four]}
     : gmap N (SimpleVector Z)) !! 2 = Some three_of_four ∧
  wf (SimpleVector_default (T:=Z)) ∧ wf three_of_four ∧
  ∃ e la lb, live (SimpleVector_default (T:=Z)) = Some la ∧
             live three_of_four = Some lb ∧
             op_eq {[1 := SimpleVector_default; 2 := three_of_four]} 1 2
             = Ok e ∧
             op_ne {[1 := SimpleVector_default; 2 := three_of_four]} 1 2
             = Ok (negb e) ∧
             ((1 : N) = 2 → e = true) ∧
             ((1 : N) ≠ 2 →
              (e = true ↔ Forall2 (λ x y, elt_eqb x y = true) la lb)).
Proof.
  split; [reflexivity|]. split; [reflexivity|].
  split; [exact wf_default|]. split; [exact wf_three_of_four|].
  apply (op_eq_elementwise
           {[1 := SimpleVector_default; 2 := three_of_four]} 1 2
           SimpleVector_default three_of_four);
    [reflexivity | reflexivity | exact wf_default | exact wf_three_of_four].
Defined.

(** X21.  When the element [<] is a strict weak order (asymmetric,
    transitive, with transitive incomparability), so is [operator<] on
    containers: it is irreflexive, asymmetric and transitive, and of two
    containers at least one is [<=] the other. *)
Theorem op_lt_strict_weak_order {T} `{Element T} `{Comparable T}
    (a b c : SimpleVector T) (la lb lc : list T) :
  (∀ x y : T, elt_ltb x y = true → elt_ltb y x = false) →
  (∀ x y z : T, elt_ltb x y = true → elt_ltb y z = true →
                elt_ltb x z = true) →
  (∀ x y z : T, elt_ltb x y = false → elt_ltb y x = false →
                elt_ltb y z = false → elt_ltb z y = false →
                elt_ltb x z = false) →
  live a = Some la → live b = Some lb → live c = Some lc →
  op_lt a a = Ok false ∧
  (op_lt a b = Ok true → op_lt b a = Ok false) ∧
  (op_lt a b = Ok true → op_lt b c = Ok true → op_lt a c = Ok true) ∧
  (op_le a b = Ok true ∨ op_le b a = Ok true).
Proof.
  intros Hasym Htrans Hinc Ha Hb Hc.
  assert (Hlt : ∀ u w lu lw, live u = Some lu → live w = Some lw →
                  op_lt u w = Ok (lexicographical_compare lu lw)).
  { intros u w lu lw Hu Hw. unfold op_lt. by rewrite Hu, Hw. }
  rewrite (Hlt a a la la), (Hlt a b la lb), (Hlt b a lb la),
    (Hlt b c lb lc), (Hlt a c la lc) by done.
  unfold op_le, op_gt. rewrite (Hlt b a lb la), (Hlt a b la lb) by done.
  simpl.
  pose proof (lexicographical_compare_asym Hasym) as Hlex.
  split; [|split; [|split]].
  - destruct (lexicographical_compare la la) eqn:E; [|done].
    by rewrite (Hlex la la E) in E.
  - intros [= E]. by rewrite (Hlex la lb E).
  - intros [= E1] [= E2]. f_equal.
    apply lexicographical_compare_lex_lt.
    apply lexicographical_compare_lex_lt in E1, E2.
    by eapply (lex_lt_trans Htrans Hinc).
  - destruct (lexicographical_compare lb la) eqn:E; [|by left].
    right. by rewrite (Hlex lb la E).
Qed.

Lemma Z_ltb_asym (x y : Z) : elt_ltb x y = true → elt_ltb y x = false.
Proof. simpl. rewrite Z.ltb_lt, Z.ltb_ge. lia. Qed.

Lemma Z_ltb_trans (x y z : Z) :
  elt_ltb x y = true → elt_ltb y z = true → elt_ltb x z = true.
Proof. simpl. rewrite !Z.ltb_lt. lia. Qed.

Lemma Z_ltb_incomparable (x y z : Z) :
  elt_ltb x y = false → elt_ltb y x = false →
  elt_ltb y z = false → elt_ltb z y = false → elt_ltb x z = false.
Proof. simpl. rewrite !Z.ltb_ge. lia. Qed.

Lemma op_lt_strict_weak_order_witness :
  (∀ x y : Z, elt_ltb x y = true → elt_ltb y x = false) ∧
  (∀ x y z : Z, elt_ltb x y = true → elt_ltb y z = true →
                elt_ltb x z = true) ∧
  (∀ x y z : Z, elt_ltb x y = false → elt_ltb y x = false →
                elt_ltb y z = false → elt_ltb z y = false →
                elt_ltb x z = false) ∧
  live (mkVector 2 2 [1; 2]%Z) = Some [1; 2]%Z ∧
  live (mkVector 3 3 [1; 2; 3]%Z) = Some [1; 2; 3]%Z ∧
  live (mkVector 1 1 [2]%Z) = Some [2]%Z ∧
  op_lt (mkVector 2 2 [1; 2]%Z) (mkVector 2 2 [1; 2]%Z) = Ok false ∧
  (op_lt (mkVector 2 2 [1; 2]%Z) (mkVector 3 3 [1; 2; 3]%Z) = Ok true →
   op_lt (mkVector 3 3 [1; 2; 3]%Z) (mkVector 2 2 [1; 2]%Z) = Ok false) ∧
  (op_lt (mkVector 2 2 [1; 2]%Z) (mkVector 3 3 [1; 2; 3]%Z) = Ok true →
   op_lt (mkVector 3 3 [1; 2; 3]%Z) (mkVector 1 1 [2]%Z) = Ok true →
   op_lt (mkVector 2 2 [1; 2]%Z) (mkVector 1 1 [2]%Z) = Ok true) ∧
  (op_le (mkVector 2 2 [1; 2]%Z) (mkVector 3 3 [1; 2; 3]%Z) = Ok true ∨
   op_le (mkVector 3 3 [1; 2; 3]%Z) (mkVector 2 2 [1; 2]%Z) = Ok true).
Proof.
  split; [exact Z_ltb_asym|]. split; [exact Z_ltb_trans|].
  split; [exact Z_ltb_incomparable|].
  split; [reflexivity|]. split; [reflexivity|]. split; [reflexivity|].
  apply (op_lt_strict_weak_order
           (mkVector 2 2 [1; 2]%Z) (mkVector 3 3 [1; 2; 3]%Z)
           (mkVector 1 1 [2]%Z) [1; 2]%Z [1; 2; 3]%Z [2]%Z);
    [exact Z_ltb_asym | exact Z_ltb_trans | exact Z_ltb_incomparable
     | reflexivity | reflexivity | reflexivity].
Defined.
